(** * Playwright core: request routing, bindings, target registries, context options

  A shallow embedding of the pieces of the Playwright client that route
  intercepted requests ([Page._requestStarted]), dispatch exposed-function
  calls ([PageBinding.dispatch]), keep the Chromium and WebKit target
  registries ([CRBrowser], [WKBrowser]) and validate browser-context
  options ([validateBrowserContextOptions]).

  JavaScript [Map]s keyed by strings are [gmap string _]; arrays are lists
  in push order; a [throw] is the left injection of a sum; event emission
  and calls into collaborators that live outside the embedded files are
  recorded, in program order, in a list of effects. *)

From Stdlib Require Import ZArith QArith.
From stdpp Require Import base option list gmap strings fin_maps.

Local Open Scope string_scope.
Local Open Scope list_scope.

(** ** Request interception router (page.ts) *)

Module Router.

Section WithMatcher.

(** [types.URLMatch] (a string, a regular expression or a predicate) and
    [helper.urlMatches] are declared outside the embedded files. *)
Context {URLMatch : Type}.
Variable urlMatches : string → URLMatch → bool.

(** Handlers are user callbacks; they are told apart by an identifier. *)
Definition RouteHandler := nat.

(** An element of [_routes]: [{ url, handler }]. *)
Record RouteEntry := { url : URLMatch; handler : RouteHandler }.

(** [network.Request]: its URL and the result of [request._route()]
    ([None] for [null]: the request was not intercepted). *)
Definition Route := nat.
Record Request := { request_url : string; _route : option Route }.

Record BrowserContextBase := { context_routes : list RouteEntry }.

Record Page := {
  _routes : list RouteEntry;
  _browserContext : BrowserContextBase
}.

Inductive Effect :=
| EmitRequest (request : Request)              (* this.emit(Events.Page.Request, request) *)
| InvokeHandler (h : RouteHandler) (route : Route) (request : Request)
                                               (* handler(route, request) *)
| RouteContinue (route : Route)                (* route.continue() *)
| UpdateRequestInterception.                   (* this._delegate.updateRequestInterception() *)

(** [Page.route]: push at the end of the page's list. *)
Definition route (u : URLMatch) (h : RouteHandler) (page : Page) : Page * list Effect :=
  ({| _routes := _routes page ++ [{| url := u; handler := h |}];
      _browserContext := _browserContext page |},
   [UpdateRequestInterception]).

(** One [for (const { url, handler } of routes)] loop of
    [_requestStarted]: [Some effects] when the loop body returned. *)
Fixpoint route_loop (routes : list RouteEntry) (rt : Route) (request : Request)
  : option (list Effect) :=
  match routes with
  | [] => None
  | entry :: rest =>
      if urlMatches (request_url request) (url entry)
      then Some [InvokeHandler (handler entry) rt request]
      else route_loop rest rt request
  end.

(** [Page._requestStarted]. *)
Definition _requestStarted (page : Page) (request : Request) : list Effect :=
  EmitRequest request ::
  match _route request with
  | None => []
  | Some rt =>
      match route_loop (_routes page) rt request with
      | Some effects => effects
      | None =>
          match route_loop (context_routes (_browserContext page)) rt request with
          | Some effects => effects
          | None => [RouteContinue rt]
          end
      end
  end.

(** Observations on a run of [_requestStarted]. *)
Definition is_invocation (e : Effect) : bool :=
  match e with InvokeHandler _ _ _ => true | _ => false end.
Definition is_continue (e : Effect) : bool :=
  match e with RouteContinue _ => true | _ => false end.
Definition invocations (effects : list Effect) : nat :=
  length (filter (λ e, is_invocation e = true) effects).
Definition continues (effects : list Effect) : nat :=
  length (filter (λ e, is_continue e = true) effects).

Definition matches (request : Request) (entry : RouteEntry) : bool :=
  urlMatches (request_url request) (url entry).

(** No entry of the list matches the request. *)
Definition none_match (request : Request) (routes : list RouteEntry) : Prop :=
  Forall (λ entry, matches request entry = false) routes.

Lemma route_loop_none routes rt request :
  none_match request routes → route_loop routes rt request = None.
Proof.
  induction 1 as [|entry rest Hentry _ IH]; simpl; [done|].
  unfold matches in Hentry. by rewrite Hentry.
Qed.

Lemma route_loop_first skipped entry rest rt request :
  none_match request skipped →
  matches request entry = true →
  route_loop (skipped ++ entry :: rest) rt request
  = Some [InvokeHandler (handler entry) rt request].
Proof.
  intros Hskipped Hentry.
  induction Hskipped as [|e l He _ IH]; simpl.
  - unfold matches in Hentry. by rewrite Hentry.
  - unfold matches in He. by rewrite He.
Qed.

Lemma route_loop_cases routes rt request :
  (route_loop routes rt request = None ∧ none_match request routes)
  ∨ (∃ skipped entry rest,
        routes = skipped ++ entry :: rest ∧
        none_match request skipped ∧
        matches request entry = true ∧
        route_loop routes rt request
        = Some [InvokeHandler (handler entry) rt request]).
Proof.
  induction routes as [|e l IH]; simpl.
  - left. split; [done|constructor].
  - destruct (urlMatches (request_url request) (url e)) eqn:He.
    + right. exists [], e, l. repeat split; [constructor|done].
    + destruct IH as [[Hnone Hall]|(sk & en & rs & -> & Hsk & Hen & Hrun)].
      * left. split; [done|]. by constructor.
      * right. exists (e :: sk), en, rs. repeat split; try done.
        by constructor.
Qed.

Lemma route_pushes u h page :
  _routes (route u h page).1 = _routes page ++ [{| url := u; handler := h |}]
  ∧ _browserContext (route u h page).1 = _browserContext page.
Proof. done. Qed.

(** C1. With an active route, the page-level list is walked in registration
    order ([Page.route] pushes at the end) and the handler of the first
    entry whose pattern matches the URL is the one invoked, and nothing
    else happens after it; the context-level list is walked the same way
    only when no page-level entry matches.  No handler of a later entry
    is invoked: of two matching routes [R1; R2], only [R1]'s runs. *)
Theorem first_matching_route_wins
    (page : Page) (request : Request) (rt : Route)
    (skipped : list RouteEntry) (entry : RouteEntry) (rest : list RouteEntry) :
  _route request = Some rt →
  none_match request skipped →
  matches request entry = true →
  _routes page = skipped ++ entry :: rest
  ∨ (none_match request (_routes page)
     ∧ context_routes (_browserContext page) = skipped ++ entry :: rest) →
  _requestStarted page request
  = [EmitRequest request; InvokeHandler (handler entry) rt request]
  ∧ invocations (_requestStarted page request) = 1
  ∧ (∀ later, later ∈ rest → handler later ≠ handler entry →
       InvokeHandler (handler later) rt request ∉ _requestStarted page request)
  ∧ (∀ u h, _routes (route u h page).1
            = _routes page ++ [{| url := u; handler := h |}]).
Proof.
  intros Hrt Hskipped Hentry Hwhere.
  assert (Hrun : _requestStarted page request
                 = [EmitRequest request; InvokeHandler (handler entry) rt request]).
  { unfold _requestStarted. rewrite Hrt.
    destruct Hwhere as [Hpage|[Hnone Hctx]].
    - by rewrite Hpage, route_loop_first.
    - by rewrite (route_loop_none _ _ _ Hnone), Hctx, route_loop_first. }
  rewrite Hrun. split; [done|]. split; [done|]. split; [|done].
  intros later _ Hne Hin.
  apply elem_of_cons in Hin as [Heq|Hin]; [discriminate|].
  apply elem_of_cons in Hin as [Heq|Hin]; [congruence|].
  by apply elem_of_nil in Hin.
Qed.

(** C2. With an active route, a request gets exactly one outcome: one
    handler invocation (of the first matching entry) or one
    [route.continue()], never both and never neither; it is continued
    exactly when no page-level and no context-level entry matches. *)
Theorem handler_or_continue_exactly_once
    (page : Page) (request : Request) (rt : Route) :
  _route request = Some rt →
  invocations (_requestStarted page request)
  + continues (_requestStarted page request) = 1
  ∧ (continues (_requestStarted page request) = 1
     ↔ none_match request (_routes page)
       ∧ none_match request (context_routes (_browserContext page)))
  ∧ (none_match request (_routes page)
     ∧ none_match request (context_routes (_browserContext page))
     → _requestStarted page request = [EmitRequest request; RouteContinue rt])
  ∧ (invocations (_requestStarted page request) = 1
     → ∃ entry, entry ∈ _routes page ++ context_routes (_browserContext page)
         ∧ matches request entry = true
         ∧ _requestStarted page request
           = [EmitRequest request; InvokeHandler (handler entry) rt request]).
Proof.
  intros Hrt. unfold _requestStarted. rewrite Hrt.
  destruct (route_loop_cases (_routes page) rt request)
    as [[Hp Hpnone]|(sk & en & rs & Hsplit & Hsk & Hen & Hp)]; rewrite Hp.
  - destruct (route_loop_cases (context_routes (_browserContext page)) rt request)
      as [[Hc Hcnone]|(sk & en & rs & Hsplit & Hsk & Hen & Hc)]; rewrite Hc.
    + split; [done|]. split; [done|]. split; [done|]. discriminate.
    + assert (Hnot : ¬ none_match request (context_routes (_browserContext page))).
      { rewrite Hsplit. intros Hall.
        apply Forall_app in Hall as [_ Hall].
        apply Forall_cons in Hall as [Hno _]. congruence. }
      split; [done|]. split; [|split].
      * split; [discriminate|]. intros [_ Hall]. by destruct Hnot.
      * intros [_ Hall]. by destruct Hnot.
      * intros _. exists en. split; [|done].
        rewrite Hsplit. apply elem_of_app. right.
        apply elem_of_app. right. apply elem_of_cons. by left.
  - assert (Hnot : ¬ none_match request (_routes page)).
    { rewrite Hsplit. intros Hall.
      apply Forall_app in Hall as [_ Hall].
      apply Forall_cons in Hall as [Hno _]. congruence. }
    split; [done|]. split; [|split].
    + split; [discriminate|]. intros [Hall _]. by destruct Hnot.
    + intros [Hall _]. by destruct Hnot.
    + intros _. exists en. split; [|done].
      rewrite Hsplit. apply elem_of_app. left.
      apply elem_of_app. right. apply elem_of_cons. by left.
Qed.

End WithMatcher.

(** A sample matcher for the examples: patterns are strings, compared
    with the URL for equality. *)
Definition exact_url (u pattern : string) : bool := String.eqb u pattern.

Definition sample_request : Request :=
  {| request_url := "http://a.test/x"; _route := Some 7 |}.

(** A page on which [R1] then [R2] were registered, both for the sample URL. *)
Definition two_route_page : Page :=
  (route "http://a.test/x" 2
     (route "http://a.test/x" 1
        {| _routes := []; _browserContext := {| context_routes := [] |} |}).1).1.

Definition unrouted_page : Page :=
  {| _routes := [{| url := "http://b.test/"; handler := 1 |}];
     _browserContext := {| context_routes := [{| url := "http://c.test/"; handler := 2 |}] |} |}.

Lemma first_matching_route_wins_witness :
  _requestStarted exact_url two_route_page sample_request
  = [EmitRequest sample_request; InvokeHandler 1 7 sample_request]
  ∧ InvokeHandler 2 7 sample_request
    ∉ _requestStarted exact_url two_route_page sample_request.
Proof.
  destruct (first_matching_route_wins exact_url two_route_page sample_request 7
              [] {| url := "http://a.test/x"; handler := 1 |}
              [{| url := "http://a.test/x"; handler := 2 |}])
    as (Hrun & _ & Hlater & _).
  - reflexivity.
  - constructor.
  - reflexivity.
  - left. reflexivity.
  - split; [exact Hrun|].
    apply (Hlater {| url := "http://a.test/x"; handler := 2 |}).
    + apply elem_of_cons. by left.
    + simpl. lia.
Defined.

Lemma handler_or_continue_exactly_once_witness :
  _requestStarted exact_url unrouted_page sample_request
  = [EmitRequest sample_request; RouteContinue 7]
  ∧ invocations (_requestStarted exact_url two_route_page sample_request)
    + continues (_requestStarted exact_url two_route_page sample_request) = 1.
Proof.
  split.
  - apply (handler_or_continue_exactly_once exact_url unrouted_page sample_request 7).
    + reflexivity.
    + split; repeat constructor.
  - apply (handler_or_continue_exactly_once exact_url two_route_page sample_request 7).
    reflexivity.
Defined.

End Router.

(** ** Exposed-function bindings (page.ts, crBrowser.ts) *)

Module Binding.

(** The JavaScript values that travel in a binding call.  Numbers are the
    integers; nothing below depends on fractional arithmetic. *)
Inductive value :=
| VUndefined
| VNull
| VBool (b : bool)
| VNum (n : Z)
| VStr (s : string).

(** How a call of the host function completes, once awaited: it returns,
    throws an [Error] (message, and stack unless it is undefined), or
    throws a value that is not an [Error]. *)
Inductive completion :=
| Returned (result : value)
| ThrewError (message : string) (stack : option string)
| ThrewValue (thrown : value).

Definition HostFunction := list value → completion.

(** [helper.evaluationString(f, ...args)]: the text of a call of the page
    function [f] on the serialised arguments.  The page functions are the
    four declared in page.ts. *)
Inductive Expression :=
| AddPageBinding (bindingName : string)
| DeliverResult (name : string) (seq : Z) (result : value)
| DeliverError (name : string) (seq : Z) (message : string) (stack : option string)
| DeliverErrorValue (name : string) (seq : Z) (thrown : value).

Record PageBinding := {
  name : string;
  playwrightFunction : HostFunction;
  source : Expression
}.

(** [new PageBinding(name, playwrightFunction)]. *)
Definition newPageBinding (n : string) (f : HostFunction) : PageBinding :=
  {| name := n; playwrightFunction := f; source := AddPageBinding n |}.

Record BrowserContextBase := { context_pageBindings : gmap string PageBinding }.

Record Page := {
  _pageBindings : gmap string PageBinding;
  _browserContext : BrowserContextBase
}.

(** What [JSON.parse(payload)] is destructured into: [{name, seq, args}]. *)
Record Payload := { payload_name : string; payload_seq : Z; payload_args : list value }.

Inductive Effect :=
| ExposeBinding (binding : PageBinding).   (* delegate.exposeBinding(binding) *)

Definition dquote : string := String (Ascii.ascii_of_nat 34) EmptyString.

(** [`Function "${name}" has been already registered`]. *)
Definition already_registered (n : string) : string :=
  "Function " +:+ dquote +:+ n +:+ dquote +:+ " has been already registered".

(** [Page.exposeFunction]; a [throw] leaves the page as it was. *)
Definition exposeFunction (n : string) (f : HostFunction) (page : Page)
  : Page * (string + list Effect) :=
  if decide (is_Some (_pageBindings page !! n)) then
    (page, inl (already_registered n))
  else if decide (is_Some (context_pageBindings (_browserContext page) !! n)) then
    (page, inl (already_registered n +:+ " in the browser context"))
  else
    let binding := newPageBinding n f in
    ({| _pageBindings := <[n := binding]> (_pageBindings page);
        _browserContext := _browserContext page |},
     inr [ExposeBinding binding]).

(** A browser context with the page-binding maps of its [pages()]. *)
Record ContextWithPages := {
  own_pageBindings : gmap string PageBinding;
  pages_pageBindings : list (gmap string PageBinding)
}.

(** [CRBrowserContext.exposeFunction] and [WKBrowserContext.exposeFunction]
    (the two bodies are the same). *)
Definition context_exposeFunction (n : string) (f : HostFunction) (ctx : ContextWithPages)
  : ContextWithPages * (string + list Effect) :=
  if decide (Exists (λ bindings, is_Some (bindings !! n)) (pages_pageBindings ctx)) then
    (ctx, inl (already_registered n +:+ " in one of the pages"))
  else if decide (is_Some (own_pageBindings ctx !! n)) then
    (ctx, inl (already_registered n))
  else
    let binding := newPageBinding n f in
    ({| own_pageBindings := <[n := binding]> (own_pageBindings ctx);
        pages_pageBindings := pages_pageBindings ctx |},
     (inr ((λ _, ExposeBinding binding) <$> pages_pageBindings ctx))).

Section Dispatch.

(** The [TypeError] the host engine raises for [binding!.playwrightFunction]
    when no binding was found; its text belongs to the engine. *)
Variable typeError_message : string.
Variable typeError_stack : option string.

(** [PageBinding.dispatch], up to the expression handed to
    [context.evaluate]. *)
Definition dispatch (page : Page) (payload : Payload) : Expression :=
  let n := payload_name payload in
  let seq := payload_seq payload in
  let binding :=
    match _pageBindings page !! n with
    | Some b => Some b
    | None => context_pageBindings (_browserContext page) !! n
    end in
  let outcome :=
    match binding with
    | Some b => playwrightFunction b (payload_args payload)
    | None => ThrewError typeError_message typeError_stack
    end in
  match outcome with
  | Returned result => DeliverResult n seq result
  | ThrewError message stack => DeliverError n seq message stack
  | ThrewValue thrown => DeliverErrorValue n seq thrown
  end.

End Dispatch.

(** *** The remote side: what [addPageBinding] installs in the page *)

(** How the promise returned by a call of the installed function settled. *)
Inductive Settlement :=
| Resolved (result : value)
| RejectedError (message : string) (stack : option string)
| RejectedValue (thrown : value).

(** The state of [window[bindingName]] for every binding: [lastSeq]
    (absent until the first call), the [callbacks] map, and the promises
    settled so far, keyed by binding name and sequence number. *)
Record Window := {
  lastSeq : gmap string Z;
  callbacks : gmap (string * Z) unit;
  settled : gmap (string * Z) Settlement
}.

(** A call [window[bindingName](...args)] of the installed function: the
    next sequence number is taken, a pending promise is recorded under it
    and the payload is handed to the native binding. *)
Definition call_binding (bindingName : string) (args : list value) (w : Window)
  : Window * Payload :=
  let seq := (default 0 (lastSeq w !! bindingName) + 1)%Z in
  ({| lastSeq := <[bindingName := seq]> (lastSeq w);
      callbacks := <[(bindingName, seq) := ()]> (callbacks w);
      settled := settled w |},
   {| payload_name := bindingName; payload_seq := seq; payload_args := args |}).

Definition settle (n : string) (seq : Z) (s : Settlement) (w : Window) : option Window :=
  match callbacks w !! (n, seq) with
  | None => None       (* callbacks.get(seq) is undefined: the evaluation throws *)
  | Some _ =>
      Some {| lastSeq := lastSeq w;
              callbacks := delete (n, seq) (callbacks w);
              settled := <[(n, seq) := s]> (settled w) |}
  end.

(** [context.evaluate(expression)] for the three delivery functions;
    [None] when the evaluation fails (the failure goes to [debugError]).
    Installing a binding leaves the promises alone. *)
Definition evaluate (expression : Expression) (w : Window) : option Window :=
  match expression with
  | AddPageBinding _ => Some w
  | DeliverResult n seq result => settle n seq (Resolved result) w
  | DeliverError n seq message stack => settle n seq (RejectedError message stack) w
  | DeliverErrorValue n seq thrown => settle n seq (RejectedValue thrown) w
  end.

(** The host function of the round-trip example, [(a, b) => a + b], on
    two integers (further arguments are ignored).  On other arguments [+]
    coerces its operands, which is not modelled: they are sent to
    [undefined]. *)
Definition sum (args : list value) : completion :=
  match args with
  | VNum a :: VNum b :: _ => Returned (VNum (a + b))
  | _ => Returned VUndefined
  end.

Definition empty_page : Page :=
  {| _pageBindings := ∅; _browserContext := {| context_pageBindings := ∅ |} |}.

Definition empty_window : Window :=
  {| lastSeq := ∅; callbacks := ∅; settled := ∅ |}.

(** Evaluating [expression] in window [w] settles the promise of call
    [seq] of binding [n] as [s], forgets its callback, and touches no
    other promise. *)
Definition delivers (expression : Expression) (n : string) (seq : Z)
    (s : Settlement) (w : Window) : Prop :=
  ∃ w', evaluate expression w = Some w'
        ∧ settled w' !! (n, seq) = Some s
        ∧ callbacks w' !! (n, seq) = None
        ∧ ∀ k, k ≠ (n, seq) →
               settled w' !! k = settled w !! k
               ∧ callbacks w' !! k = callbacks w !! k.

Lemma settle_delivers n seq s w :
  is_Some (callbacks w !! (n, seq)) →
  ∃ w', settle n seq s w = Some w'
        ∧ settled w' !! (n, seq) = Some s
        ∧ callbacks w' !! (n, seq) = None
        ∧ ∀ k, k ≠ (n, seq) →
               settled w' !! k = settled w !! k
               ∧ callbacks w' !! k = callbacks w !! k.
Proof.
  intros [[] Hpending]. unfold settle. rewrite Hpending.
  eexists. split; [reflexivity|]. simpl.
  split; [apply lookup_insert_eq|].
  split; [apply lookup_delete_eq|].
  intros k Hk. split.
  - by apply lookup_insert_ne.
  - by apply lookup_delete_ne.
Qed.

Lemma exposeFunction_conflict n f page :
  is_Some (_pageBindings page !! n)
  ∨ is_Some (context_pageBindings (_browserContext page) !! n) →
  (exposeFunction n f page).1 = page
  ∧ ((exposeFunction n f page).2 = inl (already_registered n)
     ∨ (exposeFunction n f page).2
       = inl (already_registered n +:+ " in the browser context")).
Proof.
  intros Hconflict. unfold exposeFunction.
  destruct (decide (is_Some (_pageBindings page !! n))) as [|Hpage]; simpl.
  { split; [done|by left]. }
  destruct (decide (is_Some (context_pageBindings (_browserContext page) !! n)))
    as [|Hctx]; simpl.
  { split; [done|by right]. }
  by destruct Hconflict.
Qed.

Lemma exposeFunction_fresh n f page :
  _pageBindings page !! n = None →
  context_pageBindings (_browserContext page) !! n = None →
  exposeFunction n f page
  = ({| _pageBindings := <[n := newPageBinding n f]> (_pageBindings page);
        _browserContext := _browserContext page |},
     inr [ExposeBinding (newPageBinding n f)]).
Proof.
  intros Hpage Hctx. unfold exposeFunction.
  rewrite decide_False by (rewrite Hpage; intros [? ?]; discriminate).
  rewrite decide_False by (rewrite Hctx; intros [? ?]; discriminate).
  done.
Qed.

(** C3. Round trip of a binding call.  With ["sum"] registered for
    [(a, b) => a + b], the remote call [sum(2, 3)] produces the payload
    with [seq] 1, and dispatching it delivers a success with value 5 that
    resolves the remote promise of call 1 and no other.  In general the
    binding is looked up by name, page-level first; when the host function
    returns, its result is delivered to the promise of the payload's
    sequence number; when it throws an [Error], the promise is rejected
    with its message and stack; when it throws anything else, with the
    thrown value. *)
Theorem binding_round_trip
    (typeError_message : string) (typeError_stack : option string)
    (page : Page) (binding : PageBinding) (payload : Payload) (w : Window) :
  _pageBindings page !! payload_name payload = Some binding
  ∨ (_pageBindings page !! payload_name payload = None
     ∧ context_pageBindings (_browserContext page) !! payload_name payload
       = Some binding) →
  is_Some (callbacks w !! (payload_name payload, payload_seq payload)) →
  (let page5 := (exposeFunction "sum" sum empty_page).1 in
   let call := call_binding "sum" [VNum 2; VNum 3] empty_window in
   call.2 = {| payload_name := "sum"; payload_seq := 1;
               payload_args := [VNum 2; VNum 3] |}
   ∧ dispatch typeError_message typeError_stack page5 call.2
     = DeliverResult "sum" 1 (VNum 5)
   ∧ delivers (dispatch typeError_message typeError_stack page5 call.2)
       "sum" 1 (Resolved (VNum 5)) call.1)
  ∧ match playwrightFunction binding (payload_args payload) with
    | Returned result =>
        dispatch typeError_message typeError_stack page payload
        = DeliverResult (payload_name payload) (payload_seq payload) result
        ∧ delivers (dispatch typeError_message typeError_stack page payload)
            (payload_name payload) (payload_seq payload) (Resolved result) w
    | ThrewError message stack =>
        dispatch typeError_message typeError_stack page payload
        = DeliverError (payload_name payload) (payload_seq payload) message stack
        ∧ delivers (dispatch typeError_message typeError_stack page payload)
            (payload_name payload) (payload_seq payload)
            (RejectedError message stack) w
    | ThrewValue thrown =>
        dispatch typeError_message typeError_stack page payload
        = DeliverErrorValue (payload_name payload) (payload_seq payload) thrown
        ∧ delivers (dispatch typeError_message typeError_stack page payload)
            (payload_name payload) (payload_seq payload) (RejectedValue thrown) w
    end.
Proof.
  intros Hbinding Hpending. split.
  - cbv zeta. split; [reflexivity|].
    assert (Hdispatch :
      dispatch typeError_message typeError_stack
        (exposeFunction "sum" sum empty_page).1
        (call_binding "sum" [VNum 2; VNum 3] empty_window).2
      = DeliverResult "sum" 1 (VNum 5)).
    { rewrite exposeFunction_fresh by done. unfold dispatch. simpl.
      by rewrite lookup_insert_eq. }
    split; [exact Hdispatch|]. rewrite Hdispatch.
    apply settle_delivers. simpl. rewrite lookup_insert_eq. by eexists.
  - assert (Hrun : dispatch typeError_message typeError_stack page payload
                   = match playwrightFunction binding (payload_args payload) with
                     | Returned result =>
                         DeliverResult (payload_name payload) (payload_seq payload) result
                     | ThrewError message stack =>
                         DeliverError (payload_name payload) (payload_seq payload)
                           message stack
                     | ThrewValue thrown =>
                         DeliverErrorValue (payload_name payload) (payload_seq payload)
                           thrown
                     end).
    { unfold dispatch.
      destruct Hbinding as [Hpage|[Hpage Hctx]]; rewrite Hpage; [done|].
      by rewrite Hctx. }
    rewrite Hrun.
    destruct (playwrightFunction binding (payload_args payload));
      (split; [reflexivity|by apply settle_delivers]).
Qed.

Definition throwing (_ : list value) : completion :=
  ThrewError "boom" (Some "Error: boom at host").

Definition throwing_page : Page :=
  (exposeFunction "fail" throwing empty_page).1.

Lemma binding_round_trip_witness :
  dispatch "TypeError" None throwing_page
    (call_binding "fail" [] empty_window).2
  = DeliverError "fail" 1 "boom" (Some "Error: boom at host")
  ∧ delivers (DeliverError "fail" 1 "boom" (Some "Error: boom at host"))
      "fail" 1 (RejectedError "boom" (Some "Error: boom at host"))
      (call_binding "fail" [] empty_window).1.
Proof.
  destruct (binding_round_trip "TypeError" None throwing_page
              (newPageBinding "fail" throwing)
              (call_binding "fail" [] empty_window).2
              (call_binding "fail" [] empty_window).1) as [_ [Hrun Hdelivered]].
  - left. vm_compute. reflexivity.
  - vm_compute. eexists. reflexivity.
  - split; [exact Hrun|]. rewrite Hrun in Hdelivered. exact Hdelivered.
Defined.

(** C4. Registration of a binding is all or nothing.  When the name is
    already in the page's own map or in the map of its context,
    [exposeFunction] throws an "already registered" error and leaves the
    page as it was, so every payload is still dispatched as before;
    when the name is in neither map, the new binding is inserted under
    it.  Registration on the context behaves the same way against the
    maps of its pages and its own map. *)
Theorem duplicate_binding_rejected
    (typeError_message : string) (typeError_stack : option string)
    (page : Page) (ctx : ContextWithPages) (n : string) (f : HostFunction) :
  (is_Some (_pageBindings page !! n)
   ∨ is_Some (context_pageBindings (_browserContext page) !! n) →
   (exposeFunction n f page).1 = page
   ∧ ((exposeFunction n f page).2 = inl (already_registered n)
      ∨ (exposeFunction n f page).2
        = inl (already_registered n +:+ " in the browser context"))
   ∧ ∀ payload,
       dispatch typeError_message typeError_stack (exposeFunction n f page).1 payload
       = dispatch typeError_message typeError_stack page payload)
  ∧ (_pageBindings page !! n = None
     ∧ context_pageBindings (_browserContext page) !! n = None →
     (exposeFunction n f page).2 = inr [ExposeBinding (newPageBinding n f)]
     ∧ _pageBindings (exposeFunction n f page).1
       = <[n := newPageBinding n f]> (_pageBindings page)
     ∧ _browserContext (exposeFunction n f page).1 = _browserContext page)
  ∧ (Exists (λ bindings, is_Some (bindings !! n)) (pages_pageBindings ctx)
     ∨ is_Some (own_pageBindings ctx !! n) →
     (context_exposeFunction n f ctx).1 = ctx
     ∧ ((context_exposeFunction n f ctx).2
        = inl (already_registered n +:+ " in one of the pages")
        ∨ (context_exposeFunction n f ctx).2 = inl (already_registered n)))
  ∧ (Forall (λ bindings, bindings !! n = None) (pages_pageBindings ctx)
     ∧ own_pageBindings ctx !! n = None →
     own_pageBindings (context_exposeFunction n f ctx).1
     = <[n := newPageBinding n f]> (own_pageBindings ctx)
     ∧ pages_pageBindings (context_exposeFunction n f ctx).1
       = pages_pageBindings ctx).
Proof.
  split; [|split; [|split]].
  - intros Hconflict.
    destruct (exposeFunction_conflict n f page Hconflict) as [Hsame Hmsg].
    split; [done|]. split; [done|]. intros payload. by rewrite Hsame.
  - intros [Hpage Hctx]. by rewrite exposeFunction_fresh.
  - intros Hconflict. unfold context_exposeFunction.
    destruct (decide (Exists _ _)) as [|Hpages]; simpl.
    { split; [done|by left]. }
    destruct (decide (is_Some (own_pageBindings ctx !! n))) as [|Hown]; simpl.
    { split; [done|by right]. }
    by destruct Hconflict.
  - intros [Hpages Hown]. unfold context_exposeFunction.
    rewrite decide_False.
    2:{ intros Hex. apply Exists_exists in Hex as (bindings & Hin & [b Hb]).
        rewrite Forall_forall in Hpages. specialize (Hpages _ Hin). congruence. }
    rewrite decide_False by (rewrite Hown; intros [? ?]; discriminate).
    done.
Qed.

Definition sum_page : Page := (exposeFunction "sum" sum empty_page).1.

Definition sum_context : ContextWithPages :=
  {| own_pageBindings := ∅; pages_pageBindings := [_pageBindings sum_page] |}.

Lemma duplicate_binding_rejected_witness :
  (exposeFunction "sum" throwing sum_page).1 = sum_page
  ∧ (∀ payload, dispatch "TypeError" None (exposeFunction "sum" throwing sum_page).1 payload
                = dispatch "TypeError" None sum_page payload)
  ∧ _pageBindings (exposeFunction "fail" throwing sum_page).1
    = <["fail" := newPageBinding "fail" throwing]> (_pageBindings sum_page)
  ∧ (context_exposeFunction "sum" throwing sum_context).1 = sum_context
  ∧ own_pageBindings (context_exposeFunction "fail" throwing sum_context).1
    = <["fail" := newPageBinding "fail" throwing]> ∅.
Proof.
  destruct (duplicate_binding_rejected "TypeError" None sum_page sum_context "sum" throwing)
    as (Hdup & _ & Hctxdup & _).
  destruct (duplicate_binding_rejected "TypeError" None sum_page sum_context "fail" throwing)
    as (_ & Hfresh & _ & Hctxfresh).
  destruct Hdup as (Hsame & _ & Hcall).
  { left. vm_compute. eexists. reflexivity. }
  destruct Hfresh as (_ & Hins & _).
  { split; vm_compute; reflexivity. }
  destruct Hctxdup as [Hctxsame _].
  { left. apply Exists_cons. left. vm_compute. eexists. reflexivity. }
  destruct Hctxfresh as [Hctxins _].
  { split; [|reflexivity]. repeat constructor. }
  repeat split; assumption.
Defined.

End Binding.

(** ** Target lifecycle: what the two browsers share *)

Module Lifecycle.

(** A browser context as the registries see it: [_browserContextId] is
    [None] for the default context ([null] in Chromium, [undefined] in
    WebKit). *)
Record BrowserContext := { _browserContextId : option string }.

(** A page object, named after the target it was built for. *)
Record Page := { page_target : string; isClosed : bool }.

(** The value a target's [pageOrError()] promise is fulfilled with: the
    page, or the error construction ended with ([newPage] tells the two
    apart with [instanceof Page] and throws the other). *)
Inductive PageOrError :=
| IsPage (page : Page)
| IsError (message : string).

(** [new PageEvent(context, target.pageOrError())]: the event carries the
    promise of the target it was made for. *)
Record PageEvent := { event_context : BrowserContext; event_target : string }.

Inductive Notification :=
| FirstPageCallback                                          (* this._firstPageCallback() *)
| ContextEmitPage (context : BrowserContext) (event : PageEvent)
                                                             (* context.emit(Events.BrowserContext.Page, pageEvent) *)
| PageEmitPopup (opener : Page) (event : PageEvent)          (* openerPage.emit(Events.Page.Popup, pageEvent) *)
| ContextEmitBackgroundPage (context : BrowserContext) (event : PageEvent).
                                                             (* context.emit(Events.CRBrowserContext.BackgroundPage, pageEvent) *)

(** [promise.then(callback)]: the callback runs once the promise is
    fulfilled, with whatever value; nothing runs while it is pending. *)
Definition then_ {A} (deferred : option PageOrError) (callback : PageOrError → list A)
  : list A :=
  match deferred with
  | None => []
  | Some result => callback result
  end.

(** The tail of both [then] callbacks:
    [if (!opener) return; const openerPage = await opener.pageOrError();
     if (openerPage instanceof Page && !openerPage.isClosed()) openerPage.emit(Popup, pageEvent)].
    [opener] is [None] without an opener, and otherwise the state of the
    opener's promise. *)
Definition popup_notification (opener : option (option PageOrError)) (event : PageEvent)
  : list Notification :=
  match opener with
  | None => []
  | Some deferred =>
      then_ deferred (λ openerPage,
        match openerPage with
        | IsPage page => if isClosed page then [] else [PageEmitPopup page event]
        | IsError _ => []
        end)
  end.

(** Truthiness of an optional string: absent and empty are falsy. *)
Definition truthy (s : option string) : option string :=
  match s with
  | Some EmptyString => None
  | other => other
  end.

(** [array.indexOf(x)], [None] for [-1]. *)
Fixpoint indexOf (x : string) (l : list string) : option nat :=
  match l with
  | [] => None
  | y :: rest => if decide (y = x) then Some 0 else S <$> indexOf x rest
  end.

(** The opener bookkeeping shared by [CRBrowser._createTarget] and
    [WKBrowser._onPageProxyCreated]:
    [const openerIndex = this._popupOpeners.indexOf(openerId);
     if (openerIndex !== -1) { this._popupOpeners.splice(openerIndex, 1); hasInitialAboutBlank = true; }]. *)
Definition consume_opener (openerId : string) (popupOpeners : list string)
  : list string * bool :=
  match indexOf openerId popupOpeners with
  | Some openerIndex => (delete openerIndex popupOpeners, true)
  | None => (popupOpeners, false)
  end.

(** Operations of a target-destroyed handler, in the order performed. *)
Inductive Op :=
| DidClose (target : string)     (* target._didClose() / wkPage.didClose() *)
| Dispose (target : string)      (* wkPage.dispose() *)
| Deleted (target : string).     (* registry.delete(id) *)

(** In a run, the target is closed before its entry is removed. *)
Definition close_precedes_removal (target : string) (ops : list Op) : Prop :=
  ∃ before after, ops = before ++ Deleted target :: after
                  ∧ DidClose target ∈ before.

Lemma indexOf_None x l : indexOf x l = None ↔ x ∉ l.
Proof.
  induction l as [|y l IH]; simpl.
  - split; [intros _; apply not_elem_of_nil|done].
  - destruct (decide (y = x)) as [->|Hne].
    + split; [done|]. intros Hnot. destruct Hnot. apply elem_of_cons. by left.
    + rewrite not_elem_of_cons. destruct (indexOf x l); simpl.
      * split; [done|]. intros [_ Hnot]. by apply IH in Hnot.
      * split; [|done]. intros _. split; [congruence|]. by apply IH.
Qed.

Lemma indexOf_Some x l i :
  indexOf x l = Some i →
  ∃ before after, l = before ++ x :: after
                  ∧ (x ∉ before)
                  ∧ length before = i
                  ∧ delete i l = before ++ after.
Proof.
  revert i. induction l as [|y l IH]; simpl; intros i Hi; [done|].
  destruct (decide (y = x)) as [->|Hne].
  - injection Hi as <-. exists [], l. repeat split. apply not_elem_of_nil.
  - destruct (indexOf x l) as [j|] eqn:Hj; [|done].
    injection Hi as <-.
    destruct (IH j eq_refl) as (before & after & -> & Hnot & Hlen & Hdel).
    exists (y :: before), after. simpl. repeat split.
    + rewrite not_elem_of_cons. split; [congruence|done].
    + by rewrite Hlen.
    + by rewrite Hdel.
Qed.

Lemma consume_opener_present openerId popupOpeners :
  openerId ∈ popupOpeners →
  ∃ before after,
    popupOpeners = before ++ openerId :: after
    ∧ (openerId ∉ before)
    ∧ consume_opener openerId popupOpeners = (before ++ after, true).
Proof.
  intros Hin. unfold consume_opener.
  destruct (indexOf openerId popupOpeners) as [i|] eqn:Hi.
  - destruct (indexOf_Some _ _ _ Hi) as (before & after & Hl & Hnot & _ & Hdel).
    exists before, after. by rewrite Hdel.
  - by apply indexOf_None in Hi.
Qed.

Lemma consume_opener_absent openerId popupOpeners :
  openerId ∉ popupOpeners →
  consume_opener openerId popupOpeners = (popupOpeners, false).
Proof.
  intros Hnot. unfold consume_opener.
  by rewrite (proj2 (indexOf_None _ _) Hnot).
Qed.

Lemma consume_opener_pushed openerId popupOpeners :
  openerId ∉ popupOpeners →
  consume_opener openerId (popupOpeners ++ [openerId]) = (popupOpeners, true).
Proof.
  intros Hnot.
  destruct (consume_opener_present openerId (popupOpeners ++ [openerId]))
    as (before & after & Hsplit & Hbefore & ->).
  { apply elem_of_app. right. apply elem_of_cons. by left. }
  destruct after as [|a after _] using rev_ind.
  - apply app_inj_tail in Hsplit as [-> _]. by rewrite app_nil_r.
  - rewrite app_comm_cons, app_assoc in Hsplit.
    apply app_inj_tail in Hsplit as [-> _].
    destruct Hnot. apply elem_of_app. right. apply elem_of_cons. by left.
Qed.

End Lifecycle.

(** ** The Chromium target registry (chromium/crBrowser.ts) *)

Module Chromium.
Import Lifecycle.

(** [Protocol.Target.TargetInfo], the fields the registry reads. *)
Record TargetInfo := {
  targetId : string;
  type : string;
  openerId : option string;
  browserContextId : option string
}.

(** [Protocol.Page.windowOpenPayload], the fields [_onWindowOpen] reads;
    [windowFeatures] is an array of strings, so [includes] is membership. *)
Record windowOpenPayload := { url : string; windowFeatures : list string }.

(** [new CRTarget(browser, targetInfo, context, session, sessionFactory,
    hasInitialAboutBlank)]; a session is named by its id. *)
Record CRTarget := {
  _targetInfo : TargetInfo;
  _context : BrowserContext;
  _session : option string;
  hasInitialAboutBlank : bool
}.

Record CRBrowser := {
  _defaultContext : BrowserContext;
  _contexts : gmap string BrowserContext;
  _targets : gmap string CRTarget;
  _popupOpeners : list string
}.

Inductive Call :=
| RunIfWaitingForDebugger (sessionId : string)   (* session.send('Runtime.runIfWaitingForDebugger') *)
| DetachFromTarget (sessionId : string).         (* this._session.send('Target.detachFromTarget', { sessionId }) *)

(** [CRBrowser._onWindowOpen]. *)
Definition _onWindowOpen (opener : string) (payload : windowOpenPayload) (browser : CRBrowser)
  : CRBrowser :=
  if bool_decide ("noopener" ∈ windowFeatures payload)
     && String.prefix "about:blank" (url payload)
  then browser
  else {| _defaultContext := _defaultContext browser;
          _contexts := _contexts browser;
          _targets := _targets browser;
          _popupOpeners := _popupOpeners browser ++ [opener] |}.

Definition assertion_message : string := "Target should not exist before targetCreated".

Section WithPageType.

(** [CRTarget.isPageType] is declared in crTarget.ts, outside the
    embedded files. *)
Variable isPageType : string → bool.

(** The context [_createTarget] resolves:
    [(browserContextId && this._contexts.has(browserContextId))
       ? this._contexts.get(browserContextId)! : this._defaultContext]. *)
Definition resolve_context (targetInfo : TargetInfo) (browser : CRBrowser) : BrowserContext :=
  match truthy (browserContextId targetInfo) with
  | Some id =>
      match _contexts browser !! id with
      | Some context => context
      | None => _defaultContext browser
      end
  | None => _defaultContext browser
  end.

(** The opener bookkeeping of [_createTarget]: the queue it leaves and
    the flag it computes. *)
Definition resolve_opener (targetInfo : TargetInfo) (browser : CRBrowser) : list string * bool :=
  if isPageType (type targetInfo) then
    match truthy (openerId targetInfo) with
    | Some opener => consume_opener opener (_popupOpeners browser)
    | None => (_popupOpeners browser, false)
    end
  else (_popupOpeners browser, false).

(** [CRBrowser._createTarget].  The left injection is the failed
    [assert]; the queue of popup openers was updated before it. *)
Definition _createTarget (targetInfo : TargetInfo) (session : option string) (browser : CRBrowser)
  : CRBrowser * (string + BrowserContext * CRTarget) :=
  let context := resolve_context targetInfo browser in
  let '(popupOpeners, flag) := resolve_opener targetInfo browser in
  let target := {| _targetInfo := targetInfo; _context := context;
                   _session := session; hasInitialAboutBlank := flag |} in
  if decide (is_Some (_targets browser !! targetId targetInfo)) then
    ({| _defaultContext := _defaultContext browser;
        _contexts := _contexts browser;
        _targets := _targets browser;
        _popupOpeners := popupOpeners |},
     inl assertion_message)
  else
    ({| _defaultContext := _defaultContext browser;
        _contexts := _contexts browser;
        _targets := <[targetId targetInfo := target]> (_targets browser);
        _popupOpeners := popupOpeners |},
     inr (context, target)).

(** The synchronous part of [CRBrowser._onAttachedToTarget]: the calls it
    sends, and the context and target a [then] callback was registered
    for, if any.  The first [assert] is given no message, so the error
    it throws has the empty one; the second test of [isPageType], after
    [_createTarget], cannot succeed and is left out. *)
Definition _onAttachedToTarget (targetInfo : TargetInfo) (sessionId : string)
    (waitingForDebugger : bool) (browser : CRBrowser)
  : CRBrowser * (string + list Call * option (BrowserContext * CRTarget)) :=
  if negb (isPageType (type targetInfo)) then
    if bool_decide (type targetInfo = "service_worker" ∨ type targetInfo = "browser"
                    ∨ type targetInfo = "other")
    then (browser,
          inr (if waitingForDebugger
               then [RunIfWaitingForDebugger sessionId; DetachFromTarget sessionId]
               else [],
               None))
    else (browser, inl EmptyString)
  else
    match _createTarget targetInfo (Some sessionId) browser with
    | (browser', inl message) => (browser', inl message)
    | (browser', inr created) => (browser', inr ([], Some created))
    end.

End WithPageType.

(** The callback [_onAttachedToTarget] passes to [target.pageOrError().then]:
    it takes no argument, so the value of the promise is not looked at.
    [opener] is the state of [target.opener()]'s promise, if there is an
    opener. *)
Definition attached_callback (targetInfo : TargetInfo) (context : BrowserContext)
    (opener : option (option PageOrError)) (_ : PageOrError) : list Notification :=
  let pageEvent := {| event_context := context; event_target := targetId targetInfo |} in
  if decide (type targetInfo = "page") then
    FirstPageCallback :: ContextEmitPage context pageEvent
      :: popup_notification opener pageEvent
  else if decide (type targetInfo = "background_page") then
    [ContextEmitBackgroundPage context pageEvent]
  else [].

(** What has been emitted for an attached target, given the state of its
    [pageOrError()] promise ([None] while construction is under way). *)
Definition attached_notifications (targetInfo : TargetInfo) (context : BrowserContext)
    (deferred : option PageOrError) (opener : option (option PageOrError))
  : list Notification :=
  then_ deferred (attached_callback targetInfo context opener).

(** [CRBrowser._targetDestroyed]. *)
Definition _targetDestroyed (id : string) (browser : CRBrowser) : CRBrowser * list Op :=
  match _targets browser !! id with
  | None => (browser, [])
  | Some target =>
      ({| _defaultContext := _defaultContext browser;
          _contexts := _contexts browser;
          _targets := delete id (_targets browser);
          _popupOpeners := _popupOpeners browser |},
       [Deleted id; DidClose id])
  end.

(** Page-like kinds, as [_onAttachedToTarget] tells them apart; used in
    the examples. *)
Definition page_or_background (kind : string) : bool :=
  bool_decide (kind = "page" ∨ kind = "background_page").

Definition initial_browser : CRBrowser :=
  {| _defaultContext := {| _browserContextId := None |};
     _contexts := ∅; _targets := ∅; _popupOpeners := [] |}.

End Chromium.

(** ** The WebKit page-proxy registry (webkit/wkBrowser.ts) *)

Module WebKit.
Import Lifecycle.

(** [Protocol.Playwright.pageProxyCreatedPayload.pageProxyInfo]. *)
Record PageProxyInfo := {
  pageProxyId : string;
  browserContextId : option string;
  openerId : option string
}.

(** [new WKPage(context, pageProxySession, opener, hasInitialAboutBlank)];
    the session carries the id of the page proxy, and the opener, an
    entry of the registry, is named by its id. *)
Record WKPage := {
  _browserContext : BrowserContext;
  _pageProxySession : string;
  _opener : option string;
  hasInitialAboutBlank : bool
}.

Record WKBrowser := {
  _attachToDefaultContext : bool;
  _defaultContext : BrowserContext;
  _contexts : gmap string BrowserContext;
  _wkPages : gmap string WKPage;
  _popupOpeners : list string
}.

(** [WKBrowser._onWindowOpen]. *)
Definition _onWindowOpen (opener : string) (browser : WKBrowser) : WKBrowser :=
  {| _attachToDefaultContext := _attachToDefaultContext browser;
     _defaultContext := _defaultContext browser;
     _contexts := _contexts browser;
     _wkPages := _wkPages browser;
     _popupOpeners := _popupOpeners browser ++ [opener] |}.

(** The context lookup at the head of [_onPageProxyCreated]:
    [let context = null;
     if (pageProxyInfo.browserContextId)
       context = this._contexts.get(pageProxyInfo.browserContextId) || null]. *)
Definition reported_context (info : PageProxyInfo) (browser : WKBrowser)
  : option BrowserContext :=
  match truthy (browserContextId info) with
  | Some id => _contexts browser !! id
  | None => None
  end.

(** The synchronous part of [WKBrowser._onPageProxyCreated]: [None] when
    the handler returned before creating anything, otherwise the context
    and the page a [then] callback was registered for. *)
Definition _onPageProxyCreated (info : PageProxyInfo) (browser : WKBrowser)
  : WKBrowser * option (BrowserContext * WKPage) :=
  let found := reported_context info browser in
  match found, _attachToDefaultContext browser with
  | None, false => (browser, None)
  | _, _ =>
      let context := default (_defaultContext browser) found in
      let opener :=
        match truthy (openerId info) with
        | Some id => if decide (is_Some (_wkPages browser !! id)) then Some id else None
        | None => None
        end in
      let '(popupOpeners, flag) :=
        match truthy (openerId info) with
        | Some id => consume_opener id (_popupOpeners browser)
        | None => (_popupOpeners browser, false)
        end in
      let wkPage := {| _browserContext := context;
                       _pageProxySession := pageProxyId info;
                       _opener := opener;
                       hasInitialAboutBlank := flag |} in
      ({| _attachToDefaultContext := _attachToDefaultContext browser;
          _defaultContext := _defaultContext browser;
          _contexts := _contexts browser;
          _wkPages := <[pageProxyId info := wkPage]> (_wkPages browser);
          _popupOpeners := popupOpeners |},
       Some (context, wkPage))
  end.

(** The callback [_onPageProxyCreated] passes to
    [wkPage.pageOrError().then]; it takes no argument. *)
Definition created_callback (info : PageProxyInfo) (context : BrowserContext)
    (opener : option (option PageOrError)) (_ : PageOrError) : list Notification :=
  let pageEvent := {| event_context := context; event_target := pageProxyId info |} in
  FirstPageCallback :: ContextEmitPage context pageEvent
    :: popup_notification opener pageEvent.

Definition created_notifications (info : PageProxyInfo) (context : BrowserContext)
    (deferred : option PageOrError) (opener : option (option PageOrError))
  : list Notification :=
  then_ deferred (created_callback info context opener).

(** [WKBrowser._onPageProxyDestroyed]. *)
Definition _onPageProxyDestroyed (id : string) (browser : WKBrowser) : WKBrowser * list Op :=
  match _wkPages browser !! id with
  | None => (browser, [])
  | Some wkPage =>
      ({| _attachToDefaultContext := _attachToDefaultContext browser;
          _defaultContext := _defaultContext browser;
          _contexts := _contexts browser;
          _wkPages := delete id (_wkPages browser);
          _popupOpeners := _popupOpeners browser |},
       [DidClose id; Dispose id; Deleted id])
  end.

Definition initial_browser (attachToDefaultContext : bool) : WKBrowser :=
  {| _attachToDefaultContext := attachToDefaultContext;
     _defaultContext := {| _browserContextId := None |};
     _contexts := ∅; _wkPages := ∅; _popupOpeners := [] |}.

End WebKit.

(** ** Properties of the two registries *)

Module Registry.
Import Lifecycle.

(** *** Creation in Chromium *)

Section CreateTarget.

Variable isPageType : string → bool.

Lemma createTarget_fresh info session browser :
  Chromium._targets browser !! Chromium.targetId info = None →
  Chromium._createTarget isPageType info session browser
  = (let target :=
       {| Chromium._targetInfo := info;
          Chromium._context := Chromium.resolve_context info browser;
          Chromium._session := session;
          Chromium.hasInitialAboutBlank :=
            (Chromium.resolve_opener isPageType info browser).2 |} in
     ({| Chromium._defaultContext := Chromium._defaultContext browser;
         Chromium._contexts := Chromium._contexts browser;
         Chromium._targets :=
           <[Chromium.targetId info := target]> (Chromium._targets browser);
         Chromium._popupOpeners :=
           (Chromium.resolve_opener isPageType info browser).1 |},
      inr (Chromium.resolve_context info browser, target))).
Proof.
  intros Hfresh. unfold Chromium._createTarget.
  destruct (Chromium.resolve_opener isPageType info browser) as [queue flag].
  rewrite decide_False by (rewrite Hfresh; intros [? ?]; discriminate).
  done.
Qed.

Lemma createTarget_duplicate info session browser :
  is_Some (Chromium._targets browser !! Chromium.targetId info) →
  (Chromium._createTarget isPageType info session browser).2
  = inl Chromium.assertion_message
  ∧ Chromium._targets (Chromium._createTarget isPageType info session browser).1
    = Chromium._targets browser.
Proof.
  intros Hdup. unfold Chromium._createTarget.
  destruct (Chromium.resolve_opener isPageType info browser) as [queue flag].
  by rewrite decide_True.
Qed.

Lemma resolve_opener_page info browser opener :
  isPageType (Chromium.type info) = true →
  Chromium.openerId info = Some opener →
  opener ≠ EmptyString →
  Chromium.resolve_opener isPageType info browser
  = consume_opener opener (Chromium._popupOpeners browser).
Proof.
  intros Hpage Hopener Hne. unfold Chromium.resolve_opener.
  rewrite Hpage, Hopener. simpl. by destruct opener.
Qed.

End CreateTarget.

(** The flag of the target a creation produced, if it produced one. *)
Definition created_flag (result : string + BrowserContext * Chromium.CRTarget) : option bool :=
  match result with
  | inl _ => None
  | inr (_, target) => Some (Chromium.hasInitialAboutBlank target)
  end.

Definition proxy_flag (result : option (BrowserContext * WebKit.WKPage)) : option bool :=
  match result with
  | None => None
  | Some (_, wkPage) => Some (WebKit.hasInitialAboutBlank wkPage)
  end.

(** [queue'] and [flag] are [queue] with one entry for [opener] taken
    out, the first, and [true]; or [queue] itself, which has no such
    entry, and [false]. *)
Definition consumed (opener : string) (queue queue' : list string) (flag : bool) : Prop :=
  (flag = true
   ∧ ∃ before after, queue = before ++ opener :: after
                     ∧ (opener ∉ before)
                     ∧ queue' = before ++ after)
  ∨ (flag = false ∧ (opener ∉ queue) ∧ queue' = queue).

Lemma consume_opener_consumed opener queue :
  consumed opener queue (consume_opener opener queue).1 (consume_opener opener queue).2.
Proof.
  destruct (decide (opener ∈ queue)) as [Hin|Hnot].
  - destruct (consume_opener_present _ _ Hin) as (before & after & Hq & Hb & ->).
    left. split; [done|]. by exists before, after.
  - rewrite consume_opener_absent by done. by right.
Qed.

Lemma proxyCreated_attached info browser :
  is_Some (WebKit.reported_context info browser)
  ∨ WebKit._attachToDefaultContext browser = true →
  ∃ wkPage,
    WebKit._onPageProxyCreated info browser
    = ({| WebKit._attachToDefaultContext := WebKit._attachToDefaultContext browser;
          WebKit._defaultContext := WebKit._defaultContext browser;
          WebKit._contexts := WebKit._contexts browser;
          WebKit._wkPages :=
            <[WebKit.pageProxyId info := wkPage]> (WebKit._wkPages browser);
          WebKit._popupOpeners :=
            match truthy (WebKit.openerId info) with
            | Some id => (consume_opener id (WebKit._popupOpeners browser)).1
            | None => WebKit._popupOpeners browser
            end |},
       Some (default (WebKit._defaultContext browser)
               (WebKit.reported_context info browser), wkPage))
    ∧ WebKit._browserContext wkPage
      = default (WebKit._defaultContext browser) (WebKit.reported_context info browser)
    ∧ WebKit.hasInitialAboutBlank wkPage
      = match truthy (WebKit.openerId info) with
        | Some id => (consume_opener id (WebKit._popupOpeners browser)).2
        | None => false
        end.
Proof.
  intros Hattached. unfold WebKit._onPageProxyCreated.
  destruct (truthy (WebKit.openerId info)) as [id|];
    [destruct (consume_opener id (WebKit._popupOpeners browser)) as [queue flag]|];
    (destruct (WebKit.reported_context info browser) as [context|];
     [|destruct (WebKit._attachToDefaultContext browser);
       [|destruct Hattached as [[? ?]|?]; discriminate]]);
    eexists; (split; [reflexivity|done]).
Qed.

(** *** Key uniqueness *)

(** C9. Registration keeps target ids unique.  A creation for an id that
    is already in the registry fails the assertion "Target should not
    exist before targetCreated" and leaves the registry's entries as they
    were; for an id that is not registered the assertion passes and the
    new target is inserted under its id. *)
Theorem target_ids_stay_unique
    (isPageType : string → bool) (info : Chromium.TargetInfo)
    (session : option string) (browser : Chromium.CRBrowser) :
  (is_Some (Chromium._targets browser !! Chromium.targetId info) →
   (Chromium._createTarget isPageType info session browser).2
   = inl "Target should not exist before targetCreated"
   ∧ Chromium._targets (Chromium._createTarget isPageType info session browser).1
     = Chromium._targets browser)
  ∧ (Chromium._targets browser !! Chromium.targetId info = None →
     ∃ context target,
       (Chromium._createTarget isPageType info session browser).2
       = inr (context, target)
       ∧ Chromium._targetInfo target = info
       ∧ Chromium._targets (Chromium._createTarget isPageType info session browser).1
         = <[Chromium.targetId info := target]> (Chromium._targets browser)).
Proof.
  split.
  - apply createTarget_duplicate.
  - intros Hfresh. rewrite createTarget_fresh by done. simpl.
    eexists _, _. split; [reflexivity|done].
Qed.

Definition page_T1 : Chromium.TargetInfo :=
  {| Chromium.targetId := "T1"; Chromium.type := "page";
     Chromium.openerId := None; Chromium.browserContextId := None |}.

(** A browser in which the page target [T1] is registered. *)
Definition browser_with_T1 : Chromium.CRBrowser :=
  (Chromium._createTarget Chromium.page_or_background page_T1 (Some "S1")
     Chromium.initial_browser).1.

Lemma target_ids_stay_unique_witness :
  (Chromium._createTarget Chromium.page_or_background page_T1 (Some "S2")
     browser_with_T1).2
  = inl "Target should not exist before targetCreated"
  ∧ Chromium._targets
      (Chromium._createTarget Chromium.page_or_background page_T1 (Some "S2")
         browser_with_T1).1
    = Chromium._targets browser_with_T1
  ∧ is_Some (Chromium._targets browser_with_T1 !! "T1").
Proof.
  destruct (target_ids_stay_unique Chromium.page_or_background page_T1 (Some "S2")
              browser_with_T1) as [Hdup _].
  destruct (target_ids_stay_unique Chromium.page_or_background page_T1 (Some "S1")
              Chromium.initial_browser) as [_ Hfresh].
  destruct Hdup as [Herr Hsame].
  { vm_compute. eexists. reflexivity. }
  destruct Hfresh as (context & target & _ & _ & Hins).
  { reflexivity. }
  split; [exact Herr|]. split; [exact Hsame|].
  unfold browser_with_T1. rewrite Hins.
  exists target. apply (lookup_insert_eq (Chromium._targets Chromium.initial_browser)).
Defined.

(** *** Context attribution *)

(** A reported context id that names no registered context: none was
    reported, or the empty one, or one that is not a key of the registry. *)
Definition unattributed (reported : option string) (contexts : gmap string BrowserContext)
  : Prop :=
  reported = None ∨ reported = Some EmptyString
  ∨ ∃ id, reported = Some id ∧ contexts !! id = None.

(** The reading under which every WebKit page proxy with such an id lands
    in the default context. *)
Definition proxies_always_attributed : Prop :=
  ∀ (info : WebKit.PageProxyInfo) (browser : WebKit.WKBrowser),
    unattributed (WebKit.browserContextId info) (WebKit._contexts browser) →
    ∃ wkPage,
      WebKit._wkPages (WebKit._onPageProxyCreated info browser).1
        !! WebKit.pageProxyId info = Some wkPage
      ∧ WebKit._browserContext wkPage = WebKit._defaultContext browser.

Definition stray_proxy : WebKit.PageProxyInfo :=
  {| WebKit.pageProxyId := "P1"; WebKit.browserContextId := Some "unknown-context";
     WebKit.openerId := None |}.

(** A WebKit browser that does not attach to the default context drops a
    page proxy from an unknown context: nothing is registered for it. *)
Lemma proxies_not_always_attributed :
  WebKit._onPageProxyCreated stray_proxy (WebKit.initial_browser false)
  = (WebKit.initial_browser false, None)
  ∧ ¬ proxies_always_attributed.
Proof.
  split; [reflexivity|].
  intros Hclaim.
  destruct (Hclaim stray_proxy (WebKit.initial_browser false)) as (wkPage & Hpage & _).
  - right. right. by exists "unknown-context".
  - vm_compute in Hpage. discriminate.
Qed.

Lemma resolve_context_unattributed info browser :
  unattributed (Chromium.browserContextId info) (Chromium._contexts browser) →
  Chromium.resolve_context info browser = Chromium._defaultContext browser.
Proof.
  unfold Chromium.resolve_context.
  intros [->|[->|(id & -> & Hid)]]; [done..|].
  destruct id; simpl; [done|]. by rewrite Hid.
Qed.

Lemma reported_context_unattributed info browser :
  unattributed (WebKit.browserContextId info) (WebKit._contexts browser) →
  WebKit.reported_context info browser = None.
Proof.
  unfold WebKit.reported_context.
  intros [->|[->|(id & -> & Hid)]]; [done..|].
  by destruct id.
Qed.

(** C8, as the code has it.  In Chromium every created target whose
    reported context id names no registered context is assigned to the
    default context, and creation is never refused on that ground; a
    target whose non-empty reported id is a key of the registry is
    assigned to the context registered under it.  In WebKit the same
    holds for a page proxy of a registered context; a page proxy whose
    id names no registered context is assigned to the default context
    when the browser attaches to the default context, and is otherwise
    ignored: nothing is created and the browser is unchanged. *)
Theorem unknown_context_falls_back
    (isPageType : string → bool) (info : Chromium.TargetInfo)
    (session : option string) (cr : Chromium.CRBrowser)
    (proxy : WebKit.PageProxyInfo) (wk : WebKit.WKBrowser) :
  Chromium._targets cr !! Chromium.targetId info = None →
  (∃ target,
     (Chromium._createTarget isPageType info session cr).2
     = inr (Chromium._context target, target)
     ∧ Chromium._targets (Chromium._createTarget isPageType info session cr).1
         !! Chromium.targetId info = Some target
     ∧ (unattributed (Chromium.browserContextId info) (Chromium._contexts cr) →
        Chromium._context target = Chromium._defaultContext cr)
     ∧ (∀ id context,
          Chromium.browserContextId info = Some id → id ≠ EmptyString →
          Chromium._contexts cr !! id = Some context →
          Chromium._context target = context))
  ∧ (∀ id context,
       WebKit.browserContextId proxy = Some id → id ≠ EmptyString →
       WebKit._contexts wk !! id = Some context →
       ∃ wkPage,
         (WebKit._onPageProxyCreated proxy wk).2 = Some (context, wkPage)
         ∧ WebKit._browserContext wkPage = context
         ∧ WebKit._wkPages (WebKit._onPageProxyCreated proxy wk).1
             !! WebKit.pageProxyId proxy = Some wkPage)
  ∧ (unattributed (WebKit.browserContextId proxy) (WebKit._contexts wk) →
     if WebKit._attachToDefaultContext wk
     then ∃ wkPage,
            (WebKit._onPageProxyCreated proxy wk).2
            = Some (WebKit._defaultContext wk, wkPage)
            ∧ WebKit._browserContext wkPage = WebKit._defaultContext wk
            ∧ WebKit._wkPages (WebKit._onPageProxyCreated proxy wk).1
                !! WebKit.pageProxyId proxy = Some wkPage
     else WebKit._onPageProxyCreated proxy wk = (wk, None)).
Proof.
  intros Hfresh. split; [|split].
  - rewrite createTarget_fresh by done. simpl.
    eexists (Chromium.Build_CRTarget _ _ _ _). split; [reflexivity|]. simpl.
    split; [apply lookup_insert_eq|]. split.
    + apply resolve_context_unattributed.
    + intros id context Hid Hne Hcontext. unfold Chromium.resolve_context.
      rewrite Hid. destruct id; [done|]. simpl. by rewrite Hcontext.
  - intros id context Hid Hne Hcontext.
    assert (Hfound : WebKit.reported_context proxy wk = Some context).
    { unfold WebKit.reported_context. rewrite Hid. by destruct id. }
    destruct (proxyCreated_attached proxy wk) as (wkPage & Hrun & Hctx & _).
    { left. rewrite Hfound. by eexists. }
    rewrite Hfound in Hrun, Hctx. simpl in Hrun, Hctx.
    exists wkPage. rewrite Hrun. simpl.
    split; [done|]. split; [done|]. apply lookup_insert_eq.
  - intros Hunknown.
    pose proof (reported_context_unattributed _ _ Hunknown) as Hnone.
    destruct (WebKit._attachToDefaultContext wk) eqn:Hattach.
    + destruct (proxyCreated_attached proxy wk) as (wkPage & Hrun & Hctx & _).
      { by right. }
      rewrite Hnone in Hrun, Hctx. simpl in Hrun, Hctx.
      exists wkPage. rewrite Hrun. simpl.
      split; [done|]. split; [done|]. apply lookup_insert_eq.
    + unfold WebKit._onPageProxyCreated. by rewrite Hnone, Hattach.
Qed.

Definition stray_target : Chromium.TargetInfo :=
  {| Chromium.targetId := "T9"; Chromium.type := "page";
     Chromium.openerId := None; Chromium.browserContextId := Some "unknown-context" |}.

Lemma unknown_context_falls_back_witness :
  (∃ target,
     Chromium._targets
       (Chromium._createTarget Chromium.page_or_background stray_target (Some "S9")
          browser_with_T1).1 !! "T9" = Some target
     ∧ Chromium._context target = Chromium._defaultContext browser_with_T1)
  ∧ WebKit._onPageProxyCreated stray_proxy (WebKit.initial_browser false)
    = (WebKit.initial_browser false, None)
  ∧ ∃ wkPage,
      (WebKit._onPageProxyCreated stray_proxy (WebKit.initial_browser true)).2
      = Some (WebKit._defaultContext (WebKit.initial_browser true), wkPage).
Proof.
  assert (Hstray : unattributed (Some "unknown-context") ∅).
  { right. right. by exists "unknown-context". }
  destruct (unknown_context_falls_back Chromium.page_or_background stray_target
              (Some "S9") browser_with_T1 stray_proxy (WebKit.initial_browser false))
    as ((target & _ & Hreg & Hdefault & _) & _ & Hdropped).
  { vm_compute. reflexivity. }
  destruct (unknown_context_falls_back Chromium.page_or_background stray_target
              (Some "S9") browser_with_T1 stray_proxy (WebKit.initial_browser true))
    as (_ & _ & Hattached).
  { vm_compute. reflexivity. }
  split; [|split].
  - exists target. split; [exact Hreg|]. apply Hdefault. exact Hstray.
  - apply Hdropped. exact Hstray.
  - destruct (Hattached Hstray) as (wkPage & Hrun & _). by exists wkPage.
Defined.

(** *** Destruction *)

(** The reading under which Chromium, too, closes a target before it
    removes its entry. *)
Definition removal_follows_close : Prop :=
  ∀ (id : string) (browser : Chromium.CRBrowser),
    is_Some (Chromium._targets browser !! id) →
    close_precedes_removal id (Chromium._targetDestroyed id browser).2.

(** Chromium deletes the entry of [T1] first and closes the target after. *)
Lemma chromium_removes_before_close :
  (Chromium._targetDestroyed "T1" browser_with_T1).2 = [Deleted "T1"; DidClose "T1"]
  ∧ ¬ removal_follows_close.
Proof.
  split; [reflexivity|].
  intros Hclaim.
  destruct (Hclaim "T1" browser_with_T1) as (before & after & Hops & Hclosed).
  { vm_compute. eexists. reflexivity. }
  change ((Chromium._targetDestroyed "T1" browser_with_T1).2)
    with [Deleted "T1"; DidClose "T1"] in Hops.
  destruct before as [|op1 before]; [by apply elem_of_nil in Hclosed|].
  injection Hops as Hop1 Hrest.
  destruct before as [|op2 before]; [discriminate|].
  injection Hrest as Hop2 Hrest. by destruct before.
Qed.

(** C6, as the code has it.  A target-destroyed event for an id the
    registry does not know is ignored: nothing is done and the browser is
    unchanged.  For a known id both engines close the client object and
    remove the entry, once each.  WebKit closes and disposes the page and
    removes the entry afterwards; Chromium removes the entry first and
    closes the target afterwards. *)
Theorem destroyed_target_closed_and_removed
    (id : string) (cr : Chromium.CRBrowser) (wk : WebKit.WKBrowser) :
  (Chromium._targets cr !! id = None → Chromium._targetDestroyed id cr = (cr, []))
  ∧ (is_Some (Chromium._targets cr !! id) →
     (Chromium._targetDestroyed id cr).2 = [Deleted id; DidClose id]
     ∧ Chromium._targets (Chromium._targetDestroyed id cr).1
       = delete id (Chromium._targets cr)
     ∧ Chromium._targets (Chromium._targetDestroyed id cr).1 !! id = None)
  ∧ (WebKit._wkPages wk !! id = None → WebKit._onPageProxyDestroyed id wk = (wk, []))
  ∧ (is_Some (WebKit._wkPages wk !! id) →
     (WebKit._onPageProxyDestroyed id wk).2 = [DidClose id; Dispose id; Deleted id]
     ∧ close_precedes_removal id (WebKit._onPageProxyDestroyed id wk).2
     ∧ WebKit._wkPages (WebKit._onPageProxyDestroyed id wk).1
       = delete id (WebKit._wkPages wk)
     ∧ WebKit._wkPages (WebKit._onPageProxyDestroyed id wk).1 !! id = None).
Proof.
  unfold Chromium._targetDestroyed, WebKit._onPageProxyDestroyed.
  split; [|split; [|split]].
  - by intros ->.
  - intros [target ->]. simpl. split; [done|]. split; [done|].
    apply lookup_delete_eq.
  - by intros ->.
  - intros [wkPage ->]. simpl. split; [done|]. split; [|split; [done|]].
    + exists [DidClose id; Dispose id], []. split; [done|].
      apply elem_of_cons. by left.
    + apply lookup_delete_eq.
Qed.

Definition proxy_P1 : WebKit.PageProxyInfo :=
  {| WebKit.pageProxyId := "P1"; WebKit.browserContextId := None;
     WebKit.openerId := None |}.

Definition webkit_with_P1 : WebKit.WKBrowser :=
  (WebKit._onPageProxyCreated proxy_P1 (WebKit.initial_browser true)).1.

Lemma destroyed_target_closed_and_removed_witness :
  Chromium._targetDestroyed "T7" browser_with_T1 = (browser_with_T1, [])
  ∧ (Chromium._targetDestroyed "T1" browser_with_T1).2 = [Deleted "T1"; DidClose "T1"]
  ∧ WebKit._onPageProxyDestroyed "P7" webkit_with_P1 = (webkit_with_P1, [])
  ∧ (WebKit._onPageProxyDestroyed "P1" webkit_with_P1).2
    = [DidClose "P1"; Dispose "P1"; Deleted "P1"].
Proof.
  destruct (destroyed_target_closed_and_removed "T7" browser_with_T1 webkit_with_P1)
    as (Hunknown & _ & _ & _).
  destruct (destroyed_target_closed_and_removed "T1" browser_with_T1 webkit_with_P1)
    as (_ & Hknown & _ & _).
  destruct (destroyed_target_closed_and_removed "P7" browser_with_T1 webkit_with_P1)
    as (_ & _ & Hwkunknown & _).
  destruct (destroyed_target_closed_and_removed "P1" browser_with_T1 webkit_with_P1)
    as (_ & _ & _ & Hwkknown).
  split; [apply Hunknown; vm_compute; reflexivity|].
  split; [apply Hknown; vm_compute; eexists; reflexivity|].
  split; [apply Hwkunknown; vm_compute; reflexivity|].
  apply Hwkknown. vm_compute. eexists. reflexivity.
Defined.

(** *** Popup openers *)

Lemma truthy_nonempty (id : string) : id ≠ EmptyString → truthy (Some id) = Some id.
Proof. by destruct id. Qed.

Lemma createTarget_opener isPageType info session browser opener :
  Chromium._targets browser !! Chromium.targetId info = None →
  isPageType (Chromium.type info) = true →
  Chromium.openerId info = Some opener →
  opener ≠ EmptyString →
  created_flag (Chromium._createTarget isPageType info session browser).2
  = Some (consume_opener opener (Chromium._popupOpeners browser)).2
  ∧ Chromium._popupOpeners (Chromium._createTarget isPageType info session browser).1
    = (consume_opener opener (Chromium._popupOpeners browser)).1
  ∧ Chromium._targets (Chromium._createTarget isPageType info session browser).1
      !! Chromium.targetId info
    = Some {| Chromium._targetInfo := info;
              Chromium._context := Chromium.resolve_context info browser;
              Chromium._session := session;
              Chromium.hasInitialAboutBlank :=
                (consume_opener opener (Chromium._popupOpeners browser)).2 |}
  ∧ ∀ id, id ≠ Chromium.targetId info →
          Chromium._targets (Chromium._createTarget isPageType info session browser).1 !! id
          = Chromium._targets browser !! id.
Proof.
  intros Hfresh Hpage Hopener Hne.
  rewrite createTarget_fresh by done. simpl.
  rewrite (resolve_opener_page isPageType info browser opener) by done.
  split; [done|]. split; [done|]. split; [apply lookup_insert_eq|].
  intros id Hid. by apply lookup_insert_ne.
Qed.

(** The page proxy is not one that [_onPageProxyCreated] ignores: its
    context is registered, or the browser attaches to the default one. *)
Definition accepted (info : WebKit.PageProxyInfo) (browser : WebKit.WKBrowser) : Prop :=
  is_Some (WebKit.reported_context info browser)
  ∨ WebKit._attachToDefaultContext browser = true.

Lemma accepted_same_contexts info browser browser' :
  WebKit._contexts browser' = WebKit._contexts browser →
  WebKit._attachToDefaultContext browser' = WebKit._attachToDefaultContext browser →
  accepted info browser → accepted info browser'.
Proof.
  unfold accepted, WebKit.reported_context. by intros -> ->.
Qed.

Lemma proxyCreated_opener info browser opener :
  accepted info browser →
  WebKit.openerId info = Some opener →
  opener ≠ EmptyString →
  proxy_flag (WebKit._onPageProxyCreated info browser).2
  = Some (consume_opener opener (WebKit._popupOpeners browser)).2
  ∧ WebKit._popupOpeners (WebKit._onPageProxyCreated info browser).1
    = (consume_opener opener (WebKit._popupOpeners browser)).1
  ∧ WebKit._contexts (WebKit._onPageProxyCreated info browser).1
    = WebKit._contexts browser
  ∧ WebKit._attachToDefaultContext (WebKit._onPageProxyCreated info browser).1
    = WebKit._attachToDefaultContext browser.
Proof.
  intros Haccepted Hopener Hne.
  destruct (proxyCreated_attached info browser Haccepted) as (wkPage & -> & _ & Hflag).
  rewrite Hopener, truthy_nonempty in * by done. simpl.
  by rewrite Hflag.
Qed.

(** The guard of [CRBrowser._onWindowOpen]. *)
Definition noopener_blank (payload : Chromium.windowOpenPayload) : bool :=
  bool_decide ("noopener" ∈ Chromium.windowFeatures payload)
  && String.prefix "about:blank" (Chromium.url payload).

(** The reading under which every window-open signal is recorded. *)
Definition every_window_open_pushes : Prop :=
  ∀ (opener : string) (payload : Chromium.windowOpenPayload) (browser : Chromium.CRBrowser),
    Chromium._popupOpeners (Chromium._onWindowOpen opener payload browser)
    = Chromium._popupOpeners browser ++ [opener].

Definition noopener_payload : Chromium.windowOpenPayload :=
  {| Chromium.url := "about:blank"; Chromium.windowFeatures := ["noopener"] |}.

Definition popup_of_T1 (id : string) : Chromium.TargetInfo :=
  {| Chromium.targetId := id; Chromium.type := "page";
     Chromium.openerId := Some "T1"; Chromium.browserContextId := None |}.

(** Chromium does not record a [noopener] window opened on [about:blank],
    so the target created next for the same opener gets the flag false. *)
Lemma blank_noopener_window_not_recorded :
  Chromium._onWindowOpen "T1" noopener_payload browser_with_T1 = browser_with_T1
  ∧ created_flag
      (Chromium._createTarget Chromium.page_or_background (popup_of_T1 "T2") (Some "S2")
         (Chromium._onWindowOpen "T1" noopener_payload browser_with_T1)).2
    = Some false
  ∧ ¬ every_window_open_pushes.
Proof.
  split; [reflexivity|]. split; [reflexivity|].
  intros Hclaim. specialize (Hclaim "T1" noopener_payload browser_with_T1).
  vm_compute in Hclaim. discriminate.
Qed.

(** C7, as the code has it.  A window-open signal for opener [T] pushes
    [T] on the queue of popup openers: always in WebKit, and in Chromium
    unless the window has the [noopener] feature and a URL that starts
    with [about:blank], in which case nothing is recorded.  A creation
    event (of a page-like target, in Chromium) whose non-empty opener id
    is [T] takes the first entry for [T] out of the queue and sets the
    flag when there is one, and leaves the queue alone and the flag false
    when there is none (the target id being new to the Chromium registry,
    and the page proxy not one that WebKit ignores).  So after one recorded signal for a [T] that was
    not queued, the first creation with opener [T] gets the flag true and
    empties the queue of [T], and a second one gets the flag false. *)
Theorem popup_opener_consumed_once
    (isPageType : string → bool) (opener : string)
    (payload : Chromium.windowOpenPayload) (cr : Chromium.CRBrowser)
    (first second : Chromium.TargetInfo) (session1 session2 : option string)
    (wk : WebKit.WKBrowser) (proxy1 proxy2 : WebKit.PageProxyInfo) :
  opener ≠ EmptyString →
  isPageType (Chromium.type first) = true →
  isPageType (Chromium.type second) = true →
  Chromium.openerId first = Some opener →
  Chromium.openerId second = Some opener →
  Chromium._targets cr !! Chromium.targetId first = None →
  Chromium._targets cr !! Chromium.targetId second = None →
  Chromium.targetId first ≠ Chromium.targetId second →
  accepted proxy1 wk →
  accepted proxy2 wk →
  WebKit.openerId proxy1 = Some opener →
  WebKit.openerId proxy2 = Some opener →
  Chromium._popupOpeners (Chromium._onWindowOpen opener payload cr)
  = (if noopener_blank payload then Chromium._popupOpeners cr
     else Chromium._popupOpeners cr ++ [opener])
  ∧ WebKit._popupOpeners (WebKit._onWindowOpen opener wk)
    = WebKit._popupOpeners wk ++ [opener]
  ∧ (∃ flag,
       created_flag (Chromium._createTarget isPageType first session1 cr).2 = Some flag
       ∧ consumed opener (Chromium._popupOpeners cr)
           (Chromium._popupOpeners (Chromium._createTarget isPageType first session1 cr).1)
           flag)
  ∧ (∃ flag,
       proxy_flag (WebKit._onPageProxyCreated proxy1 wk).2 = Some flag
       ∧ consumed opener (WebKit._popupOpeners wk)
           (WebKit._popupOpeners (WebKit._onPageProxyCreated proxy1 wk).1) flag)
  ∧ (opener ∉ Chromium._popupOpeners cr → noopener_blank payload = false →
     let opened := Chromium._onWindowOpen opener payload cr in
     let created := Chromium._createTarget isPageType first session1 opened in
     created_flag created.2 = Some true
     ∧ Chromium._popupOpeners created.1 = Chromium._popupOpeners cr
     ∧ created_flag (Chromium._createTarget isPageType second session2 created.1).2
       = Some false)
  ∧ (opener ∉ WebKit._popupOpeners wk →
     let opened := WebKit._onWindowOpen opener wk in
     let created := WebKit._onPageProxyCreated proxy1 opened in
     proxy_flag created.2 = Some true
     ∧ WebKit._popupOpeners created.1 = WebKit._popupOpeners wk
     ∧ proxy_flag (WebKit._onPageProxyCreated proxy2 created.1).2 = Some false).
Proof.
  intros Hne Hpage1 Hpage2 Hopener1 Hopener2 Hfresh1 Hfresh2 Hids
         Haccepted1 Haccepted2 Hproxy1 Hproxy2.
  split; [|split; [|split; [|split; [|split]]]].
  - unfold Chromium._onWindowOpen, noopener_blank.
    by destruct (bool_decide _ && String.prefix _ _).
  - done.
  - destruct (createTarget_opener isPageType first session1 cr opener)
      as (Hflag & Hqueue & _); [done..|].
    eexists. split; [exact Hflag|]. rewrite Hqueue. apply consume_opener_consumed.
  - destruct (proxyCreated_opener proxy1 wk opener) as (Hflag & Hqueue & _); [done..|].
    eexists. split; [exact Hflag|]. rewrite Hqueue. apply consume_opener_consumed.
  - intros Hnot Hguard. cbv zeta.
    assert (Hopened : Chromium._onWindowOpen opener payload cr
                      = {| Chromium._defaultContext := Chromium._defaultContext cr;
                           Chromium._contexts := Chromium._contexts cr;
                           Chromium._targets := Chromium._targets cr;
                           Chromium._popupOpeners := Chromium._popupOpeners cr ++ [opener] |}).
    { unfold Chromium._onWindowOpen. unfold noopener_blank in Hguard. by rewrite Hguard. }
    rewrite Hopened.
    set (opened := Chromium.Build_CRBrowser _ _ _ _).
    destruct (createTarget_opener isPageType first session1 opened opener)
      as (Hflag & Hqueue & _ & Hothers); [done..|].
    simpl in Hflag, Hqueue. rewrite consume_opener_pushed in Hflag, Hqueue by done.
    split; [exact Hflag|]. split; [exact Hqueue|].
    destruct (createTarget_opener isPageType second session2
                (Chromium._createTarget isPageType first session1 opened).1 opener)
      as (Hflag2 & _); [|done..|].
    { rewrite Hothers by done. exact Hfresh2. }
    rewrite Hflag2, Hqueue. by rewrite consume_opener_absent.
  - intros Hnot. cbv zeta.
    destruct (proxyCreated_opener proxy1 (WebKit._onWindowOpen opener wk) opener)
      as (Hflag & Hqueue & Hcontexts & Hattach); [|done..|].
    { by apply (accepted_same_contexts proxy1 wk). }
    simpl in Hflag, Hqueue, Hcontexts, Hattach.
    rewrite consume_opener_pushed in Hflag, Hqueue by done.
    split; [exact Hflag|]. split; [exact Hqueue|].
    destruct (proxyCreated_opener proxy2
                (WebKit._onPageProxyCreated proxy1 (WebKit._onWindowOpen opener wk)).1
                opener) as (Hflag2 & _); [|done..|].
    { by apply (accepted_same_contexts proxy2 wk). }
    rewrite Hflag2, Hqueue. by rewrite consume_opener_absent.
Qed.

Definition window_payload : Chromium.windowOpenPayload :=
  {| Chromium.url := "http://a.test/popup"; Chromium.windowFeatures := [] |}.

Definition popup_proxy (id : string) : WebKit.PageProxyInfo :=
  {| WebKit.pageProxyId := id; WebKit.browserContextId := None;
     WebKit.openerId := Some "T1" |}.

Lemma popup_opener_consumed_once_witness :
  (let opened := Chromium._onWindowOpen "T1" window_payload browser_with_T1 in
   let created :=
     Chromium._createTarget Chromium.page_or_background (popup_of_T1 "T2") (Some "S2")
       opened in
   created_flag created.2 = Some true
   ∧ Chromium._popupOpeners created.1 = Chromium._popupOpeners browser_with_T1
   ∧ created_flag
       (Chromium._createTarget Chromium.page_or_background (popup_of_T1 "T3") (Some "S3")
          created.1).2 = Some false).
Proof.
  apply (popup_opener_consumed_once Chromium.page_or_background "T1" window_payload
           browser_with_T1 (popup_of_T1 "T2") (popup_of_T1 "T3") (Some "S2") (Some "S3")
           webkit_with_P1 (popup_proxy "P2") (popup_proxy "P3")).
  all: try reflexivity; try discriminate; try (vm_compute; reflexivity).
  - right. reflexivity.
  - right. reflexivity.
  - apply not_elem_of_nil.
Defined.

(** *** Notifications *)

(** The reading under which a target is announced only when its page was
    constructed. *)
Definition notifies_only_on_success : Prop :=
  ∀ (info : Chromium.TargetInfo) (context : BrowserContext)
    (deferred : option PageOrError) (opener : option (option PageOrError))
    (n : Notification),
    n ∈ Chromium.attached_notifications info context deferred opener →
    ∃ page, deferred = Some (IsPage page).

Definition opener_page : Page := {| page_target := "T1"; isClosed := false |}.

Definition popup_event : PageEvent :=
  {| event_context := {| _browserContextId := None |}; event_target := "T2" |}.

(** The popup target [T2] of the open page [T1] fails to construct: its
    promise is fulfilled with an error, and the callback announces it all
    the same, to the context and to the opener. *)
Lemma failed_construction_is_announced :
  Chromium.attached_notifications (popup_of_T1 "T2") {| _browserContextId := None |}
    (Some (IsError "Target closed")) (Some (Some (IsPage opener_page)))
  = [FirstPageCallback;
     ContextEmitPage {| _browserContextId := None |} popup_event;
     PageEmitPopup opener_page popup_event]
  ∧ ¬ notifies_only_on_success.
Proof.
  split; [reflexivity|].
  intros Hclaim.
  destruct (Hclaim (popup_of_T1 "T2") {| _browserContextId := None |}
              (Some (IsError "Target closed")) (Some (Some (IsPage opener_page)))
              FirstPageCallback) as [page Hpage].
  - apply elem_of_cons. by left.
  - discriminate.
Qed.

Lemma popup_notification_spec opener event page e :
  PageEmitPopup page e ∈ popup_notification opener event
  ↔ opener = Some (Some (IsPage page)) ∧ isClosed page = false ∧ e = event.
Proof.
  unfold popup_notification, then_.
  destruct opener as [[[p|message]|]|]; simpl.
  - destruct (isClosed p) eqn:Hclosed.
    + split; [intros Hin; by apply elem_of_nil in Hin|].
      intros (Hp & Hopen & _). injection Hp as ->. congruence.
    + rewrite list_elem_of_singleton. split.
      * intros Heq. injection Heq as -> ->. done.
      * intros (Hp & _ & ->). injection Hp as ->. done.
  - split; [intros Hin; by apply elem_of_nil in Hin|]. by intros (? & _).
  - split; [intros Hin; by apply elem_of_nil in Hin|]. by intros (? & _).
  - split; [intros Hin; by apply elem_of_nil in Hin|]. by intros (? & _).
Qed.

(** C5, as the code has it.  Nothing is emitted for a created target
    while its deferred page-or-error result is pending.  Once the result
    has completed, with a page or with an error alike, a Chromium target
    of kind [page] and a WebKit page proxy get the first-target-ready
    signal and then the context's "new page" notification, whose event
    carries the deferred result.  The opener's "popup" notification
    follows exactly when the target has an opener whose own deferred
    result has completed with a page that is not closed. *)
Theorem notifications_follow_settlement
    (info : Chromium.TargetInfo) (proxy : WebKit.PageProxyInfo)
    (context : BrowserContext)
    (deferred : option PageOrError) (opener : option (option PageOrError)) :
  (deferred = None →
   Chromium.attached_notifications info context deferred opener = []
   ∧ WebKit.created_notifications proxy context deferred opener = [])
  ∧ (is_Some deferred → Chromium.type info = "page" →
     Chromium.attached_notifications info context deferred opener
     = FirstPageCallback
       :: ContextEmitPage context
            {| event_context := context; event_target := Chromium.targetId info |}
       :: popup_notification opener
            {| event_context := context; event_target := Chromium.targetId info |})
  ∧ (is_Some deferred →
     WebKit.created_notifications proxy context deferred opener
     = FirstPageCallback
       :: ContextEmitPage context
            {| event_context := context; event_target := WebKit.pageProxyId proxy |}
       :: popup_notification opener
            {| event_context := context; event_target := WebKit.pageProxyId proxy |})
  ∧ (∀ event page e,
       PageEmitPopup page e ∈ popup_notification opener event
       ↔ opener = Some (Some (IsPage page)) ∧ isClosed page = false ∧ e = event).
Proof.
  split; [|split; [|split]].
  - by intros ->.
  - intros [result ->] Hpage.
    unfold Chromium.attached_notifications, Chromium.attached_callback. simpl.
    by rewrite decide_True.
  - by intros [result ->].
  - intros event page e. apply popup_notification_spec.
Qed.

Lemma notifications_follow_settlement_witness :
  Chromium.attached_notifications (popup_of_T1 "T2") {| _browserContextId := None |}
    None (Some (Some (IsPage opener_page))) = []
  ∧ Chromium.attached_notifications (popup_of_T1 "T2") {| _browserContextId := None |}
      (Some (IsError "Target closed")) (Some None)
    = [FirstPageCallback; ContextEmitPage {| _browserContextId := None |} popup_event]
  ∧ WebKit.created_notifications (popup_proxy "T2") {| _browserContextId := None |}
      (Some (IsPage {| page_target := "T2"; isClosed := false |}))
      (Some (Some (IsPage opener_page)))
    = [FirstPageCallback;
       ContextEmitPage {| _browserContextId := None |} popup_event;
       PageEmitPopup opener_page popup_event].
Proof.
  destruct (notifications_follow_settlement (popup_of_T1 "T2") (popup_proxy "T2")
              {| _browserContextId := None |} None (Some (Some (IsPage opener_page))))
    as ([Hpending _] & _); [reflexivity|].
  destruct (notifications_follow_settlement (popup_of_T1 "T2") (popup_proxy "T2")
              {| _browserContextId := None |} (Some (IsError "Target closed"))
              (Some None)) as (_ & Hfailed & _).
  destruct (notifications_follow_settlement (popup_of_T1 "T2") (popup_proxy "T2")
              {| _browserContextId := None |}
              (Some (IsPage {| page_target := "T2"; isClosed := false |}))
              (Some (Some (IsPage opener_page)))) as (_ & _ & Hpage & _).
  split; [exact Hpending|].
  split; [apply Hfailed; [by eexists|reflexivity]|].
  apply Hpage. by eexists.
Defined.

End Registry.

(** ** Browser-context options (browserContext.ts) *)

Module Options.

(** A JavaScript number, as far as comparisons see it: a rational, one of
    the infinities, or [NaN]. *)
Inductive number :=
| NaN
| MinusInfinity
| Finite (q : Q)
| PlusInfinity.

(** [a < b]; every comparison with [NaN] is false. *)
Definition lt (a b : number) : bool :=
  match a, b with
  | NaN, _ | _, NaN => false
  | MinusInfinity, MinusInfinity => false
  | MinusInfinity, _ => true
  | _, MinusInfinity => false
  | PlusInfinity, _ => false
  | Finite _, PlusInfinity => true
  | Finite x, Finite y => negb (Qle_bool y x)
  end.

(** Falsy numbers: zero and [NaN]. *)
Definition falsy (a : number) : bool :=
  match a with
  | NaN => true
  | Finite q => Qeq_bool q 0
  | _ => false
  end.

Definition num (z : Z) : number := Finite (inject_Z z).

(** [types.Size]. *)
Record Size := { width : number; height : number }.

(** The [viewport] option: left out, [null], or a reference to a [Size]
    object in the heap. *)
Inductive Viewport :=
| ViewportMissing
| ViewportNull
| ViewportAt (l : nat).

(** [types.Geolocation]; [accuracy] is optional. *)
Record Geolocation := {
  longitude : number;
  latitude : number;
  accuracy : option number
}.

(** [types.Credentials]. *)
Record Credentials := { username : string; password : string }.

Inductive Error :=
| InvalidLongitude (longitude : number)   (* `Invalid longitude "${longitude}": precondition -180 <= LONGITUDE <= 180 failed.` *)
| InvalidLatitude (latitude : number)     (* `Invalid latitude "${latitude}": precondition -90 <= LATITUDE <= 90 failed.` *)
| InvalidAccuracy (accuracy : number)     (* `Invalid accuracy "${accuracy}": precondition 0 <= ACCURACY failed.` *)
| InvalidHeaders (message : string).      (* what network.verifyHeaders throws *)

(** [result.accuracy || 0]: an accuracy that is left out, zero or [NaN]
    becomes [0]. *)
Definition accuracy_or_zero (a : option number) : number :=
  match a with
  | Some a => if falsy a then num 0 else a
  | None => num 0
  end.

(** [verifyGeolocation].  The fields are numbers by their type, so
    [helper.isNumber] holds of them. *)
Definition verifyGeolocation (geolocation : Geolocation) : Error + Geolocation :=
  let accuracy' := accuracy_or_zero (accuracy geolocation) in
  let result := {| longitude := longitude geolocation;
                   latitude := latitude geolocation;
                   accuracy := Some accuracy' |} in
  if lt (longitude result) (num (-180)) || lt (num 180) (longitude result) then
    inl (InvalidLongitude (longitude result))
  else if lt (latitude result) (num (-90)) || lt (num 90) (latitude result) then
    inl (InvalidLatitude (latitude result))
  else if lt accuracy' (num 0) then
    inl (InvalidAccuracy accuracy')
  else inr result.

(** [x] is not below [lo] and not above [hi].  [NaN], which compares
    false with every number, is not excluded by such a test. *)
Definition bounded (lo hi : Z) (x : number) : Prop :=
  match x with
  | NaN => True
  | Finite q => (inject_Z lo <= q)%Q ∧ (q <= inject_Z hi)%Q
  | _ => False
  end.

Definition nonnegative (x : number) : Prop :=
  match x with
  | Finite q => (0 <= q)%Q
  | PlusInfinity => True
  | _ => False
  end.

Lemma range_test lo hi x :
  lt x (num lo) || lt (num hi) x = false ↔ bounded lo hi x.
Proof.
  destruct x as [| |q|]; simpl; try done.
  rewrite orb_false_iff, !negb_false_iff, !Qle_bool_iff. done.
Qed.

Lemma accuracy_test a :
  lt (accuracy_or_zero a) (num 0) = false ↔ nonnegative (accuracy_or_zero a).
Proof.
  assert (Hzero : lt (num 0) (num 0) = false ↔ nonnegative (num 0)).
  { split; [intros _; apply Qle_refl|done]. }
  destruct a as [[| |q|]|]; simpl; try done.
  destruct (Qeq_bool q 0); [done|].
  simpl. by rewrite negb_false_iff, Qle_bool_iff.
Qed.

Lemma verifyGeolocation_accepts g :
  bounded (-180) 180 (longitude g) →
  bounded (-90) 90 (latitude g) →
  nonnegative (accuracy_or_zero (accuracy g)) →
  verifyGeolocation g
  = inr {| longitude := longitude g; latitude := latitude g;
           accuracy := Some (accuracy_or_zero (accuracy g)) |}.
Proof.
  intros Hlon Hlat Hacc. unfold verifyGeolocation. cbn [longitude latitude].
  apply range_test in Hlon. apply range_test in Hlat. apply accuracy_test in Hacc.
  by rewrite Hlon, Hlat, Hacc.
Qed.

Lemma verifyGeolocation_inr g g' :
  verifyGeolocation g = inr g' →
  g' = {| longitude := longitude g; latitude := latitude g;
          accuracy := Some (accuracy_or_zero (accuracy g)) |}
  ∧ bounded (-180) 180 (longitude g)
  ∧ bounded (-90) 90 (latitude g)
  ∧ nonnegative (accuracy_or_zero (accuracy g)).
Proof.
  unfold verifyGeolocation. cbn [longitude latitude].
  destruct (lt (longitude g) (num (-180)) || lt (num 180) (longitude g)) eqn:Hlon;
    [done|].
  destruct (lt (latitude g) (num (-90)) || lt (num 90) (latitude g)) eqn:Hlat;
    [done|].
  destruct (lt (accuracy_or_zero (accuracy g)) (num 0)) eqn:Hacc; [done|].
  intros Heq. injection Heq as <-.
  apply range_test in Hlon. apply range_test in Hlat. apply accuracy_test in Hacc.
  done.
Qed.


Section WithHeaders.

(** [network.Headers] and [network.verifyHeaders] are declared in
    network.ts, outside the embedded files. *)
Context {Headers : Type}.
Variable verifyHeaders : Headers → string + Headers.

(** [BrowserContextOptions]; an optional field that is left out is [None]. *)
Record BrowserContextOptions := {
  viewport : Viewport;
  ignoreHTTPSErrors : option bool;
  javaScriptEnabled : option bool;
  bypassCSP : option bool;
  userAgent : option string;
  locale : option string;
  timezoneId : option string;
  geolocation : option Geolocation;
  permissions : option (list string);
  extraHTTPHeaders : option Headers;
  offline : option bool;
  httpCredentials : option Credentials;
  deviceScaleFactor : option number;
  isMobile : option bool;
  hasTouch : option bool
}.

(** [result.viewport = v; result.geolocation = g; result.extraHTTPHeaders = e]
    on the spread copy [{ ...options }]. *)
Definition assign (options : BrowserContextOptions) (v : Viewport)
    (g : option Geolocation) (e : option Headers) : BrowserContextOptions :=
  {| viewport := v;
     ignoreHTTPSErrors := ignoreHTTPSErrors options;
     javaScriptEnabled := javaScriptEnabled options;
     bypassCSP := bypassCSP options;
     userAgent := userAgent options;
     locale := locale options;
     timezoneId := timezoneId options;
     geolocation := g;
     permissions := permissions options;
     extraHTTPHeaders := e;
     offline := offline options;
     httpCredentials := httpCredentials options;
     deviceScaleFactor := deviceScaleFactor options;
     isMobile := isMobile options;
     hasTouch := hasTouch options |}.

Definition default_viewport : Size := {| width := num 1280; height := num 720 |}.

(** [if (!result.viewport && result.viewport !== null)
      result.viewport = { width: 1280, height: 720 }]:
    the object literal is allocated at a fresh address. *)
Definition default_missing_viewport (v : Viewport) (heap : gmap nat Size)
  : Viewport * gmap nat Size :=
  match v with
  | ViewportMissing =>
      let l := fresh (dom heap) in (ViewportAt l, <[l := default_viewport]> heap)
  | _ => (v, heap)
  end.

(** [if (result.viewport) result.viewport = { ...result.viewport }]: the
    spread allocates a new object with the same fields.  A reference
    always points into the heap. *)
Definition copy_viewport (v : Viewport) (heap : gmap nat Size)
  : Viewport * gmap nat Size :=
  match v with
  | ViewportAt l =>
      match heap !! l with
      | Some size => let l' := fresh (dom heap) in (ViewportAt l', <[l' := size]> heap)
      | None => (v, heap)
      end
  | _ => (v, heap)
  end.

(** [validateBrowserContextOptions], with the heap of [Size] objects
    threaded through. *)
Definition validateBrowserContextOptions (options : BrowserContextOptions)
    (heap : gmap nat Size) : Error + BrowserContextOptions * gmap nat Size :=
  let '(v1, heap1) := default_missing_viewport (viewport options) heap in
  let '(v2, heap2) := copy_viewport v1 heap1 in
  match
    match geolocation options with
    | Some g =>
        match verifyGeolocation g with
        | inl error => inl error
        | inr g' => inr (Some g')
        end
    | None => inr None
    end
  with
  | inl error => inl error
  | inr g =>
      match
        match extraHTTPHeaders options with
        | Some headers =>
            match verifyHeaders headers with
            | inl message => inl (InvalidHeaders message)
            | inr headers' => inr (Some headers')
            end
        | None => inr None
        end
      with
      | inl error => inl error
      | inr e => inr (assign options v2 g e, heap2)
      end
  end.

(** The twelve options [validateBrowserContextOptions] does not assign. *)
Definition same_plain_options (a b : BrowserContextOptions) : Prop :=
  ignoreHTTPSErrors a = ignoreHTTPSErrors b
  ∧ javaScriptEnabled a = javaScriptEnabled b
  ∧ bypassCSP a = bypassCSP b
  ∧ userAgent a = userAgent b
  ∧ locale a = locale b
  ∧ timezoneId a = timezoneId b
  ∧ permissions a = permissions b
  ∧ offline a = offline b
  ∧ httpCredentials a = httpCredentials b
  ∧ deviceScaleFactor a = deviceScaleFactor b
  ∧ isMobile a = isMobile b
  ∧ hasTouch a = hasTouch b.

Lemma assign_plain options v g e : same_plain_options options (assign options v g e).
Proof. by repeat split. Qed.

(** What the two viewport statements leave, against what they found. *)
Definition viewport_validated (v : Viewport) (heap : gmap nat Size)
    (v' : Viewport) (heap' : gmap nat Size) : Prop :=
  match v with
  | ViewportMissing =>
      ∃ l, v' = ViewportAt l ∧ heap !! l = None ∧ heap' !! l = Some default_viewport
  | ViewportNull => v' = ViewportNull
  | ViewportAt l =>
      ∃ l', v' = ViewportAt l' ∧ l' ≠ l ∧ heap !! l' = None ∧ heap' !! l' = heap !! l
  end
  ∧ ∀ l, is_Some (heap !! l) → heap' !! l = heap !! l.

Lemma fresh_unused (heap : gmap nat Size) : heap !! fresh (dom heap) = None.
Proof. apply not_elem_of_dom, is_fresh. Qed.

Lemma insert_fresh_keeps (heap : gmap nat Size) size l :
  is_Some (heap !! l) → <[fresh (dom heap) := size]> heap !! l = heap !! l.
Proof.
  intros [old Hold]. apply lookup_insert_ne. intros Heq.
  rewrite <- Heq, fresh_unused in Hold. discriminate.
Qed.

Lemma viewport_steps v heap :
  (∀ l, v = ViewportAt l → is_Some (heap !! l)) →
  viewport_validated v heap
    (copy_viewport (default_missing_viewport v heap).1
       (default_missing_viewport v heap).2).1
    (copy_viewport (default_missing_viewport v heap).1
       (default_missing_viewport v heap).2).2.
Proof.
  intros Hwf. destruct v as [| |l]; simpl.
  - set (heap1 := <[fresh (dom heap) := default_viewport]> heap).
    assert (Hdefault : heap1 !! fresh (dom heap) = Some default_viewport)
      by apply lookup_insert_eq.
    assert (Hkept : ∀ l, is_Some (heap !! l) → heap1 !! l = heap !! l)
      by (intros l Hl; by apply insert_fresh_keeps).
    rewrite Hdefault. simpl. split.
    + eexists. split; [done|]. split; [|apply lookup_insert_eq].
      destruct (heap !! fresh (dom heap1)) as [size|] eqn:Hl; [|done].
      assert (Hin : heap1 !! fresh (dom heap1) = Some size).
      { rewrite Hkept by (by eexists). done. }
      by rewrite fresh_unused in Hin.
    + intros l Hl. rewrite insert_fresh_keeps.
      * by apply Hkept.
      * by rewrite Hkept.
  - split; [done|]. done.
  - destruct (Hwf l eq_refl) as [size Hsize]. rewrite Hsize. simpl. split.
    + eexists. split; [done|]. split.
      * intros Heq. rewrite <- Heq, fresh_unused in Hsize. discriminate.
      * split; [apply fresh_unused|]. by rewrite lookup_insert_eq.
    + intros l' Hl'. by apply insert_fresh_keeps.
Qed.


End WithHeaders.

Arguments BrowserContextOptions : clear implicits.

(** Headers for the examples: names with values that may fail to be
    strings, and a check in the manner of [network.verifyHeaders], which
    insists on string values and returns a copy. *)
Definition SampleHeaders := list (string * Binding.value).

Definition strings_only (headers : SampleHeaders) : string + SampleHeaders :=
  if forallb (λ header, match header.2 with Binding.VStr _ => true | _ => false end) headers
  then inr headers
  else inl "Expected value of header to be String".

Definition plain_options (v : Viewport) (g : option Geolocation)
    (e : option SampleHeaders) : BrowserContextOptions SampleHeaders :=
  {| viewport := v; ignoreHTTPSErrors := Some true; javaScriptEnabled := None;
     bypassCSP := None; userAgent := Some "agent"; locale := None;
     timezoneId := None; geolocation := g; permissions := Some ["geolocation"];
     extraHTTPHeaders := e; offline := None; httpCredentials := None;
     deviceScaleFactor := Some (num 2); isMobile := None; hasTouch := None |}.



Definition sample_geolocation : Geolocation :=
  {| longitude := Finite (21 # 2); latitude := num 48; accuracy := None |}.


End Options.

(** ** Request interception: when it is needed, and which route wins *)

Module Interception.
Import Router.

Section WithMatcher.

Context {URLMatch : Type}.
Variable urlMatches : string → URLMatch → bool.


(** [CRBrowserContext.route] and [WKBrowserContext.route], as a page of
    the context sees them: the entry is pushed on the context's list,
    which the page reads through [_browserContext]. *)
Definition context_route (u : URLMatch) (h : RouteHandler) (page : @Page URLMatch)
  : @Page URLMatch :=
  {| _routes := _routes page;
     _browserContext :=
       {| context_routes :=
            context_routes (_browserContext page) ++ [{| url := u; handler := h |}] |} |}.

Lemma route_loop_app routes more rt request :
  route_loop urlMatches (routes ++ more) rt request
  = match route_loop urlMatches routes rt request with
    | Some effects => Some effects
    | None => route_loop urlMatches more rt request
    end.
Proof.
  induction routes as [|entry routes IH]; simpl; [done|].
  by destruct (urlMatches (request_url request) (url entry)).
Qed.


(** A request that a page-level route handles keeps its handler whatever
    is registered later, on the page or on the context.  A request that
    no page-level route handles goes to a matching page-level route as
    soon as one is registered, even if a context-level route matched it
    before; and it keeps its outcome when a context-level route is added
    while an earlier context-level route matches. *)
Theorem earlier_routes_keep_priority
    (page : @Page URLMatch) (request : Request) (rt : Route)
    (u : URLMatch) (h : RouteHandler) :
  _route request = Some rt →
  (¬ none_match urlMatches request (_routes page) →
   _requestStarted urlMatches (route u h page).1 request
   = _requestStarted urlMatches page request
   ∧ _requestStarted urlMatches (context_route u h page) request
     = _requestStarted urlMatches page request)
  ∧ (none_match urlMatches request (_routes page) →
     urlMatches (request_url request) u = true →
     _requestStarted urlMatches (route u h page).1 request
     = [EmitRequest request; InvokeHandler h rt request])
  ∧ (¬ none_match urlMatches request (context_routes (_browserContext page)) →
     _requestStarted urlMatches (context_route u h page) request
     = _requestStarted urlMatches page request).
Proof.
  intros Hrt. unfold _requestStarted. rewrite Hrt. simpl.
  rewrite !route_loop_app.
  split; [|split].
  - intros Hsome.
    destruct (route_loop_cases urlMatches (_routes page) rt request)
      as [[_ Hnone]|(sk & en & rs & _ & _ & _ & ->)]; [by destruct Hsome|done].
  - intros Hnone Hmatch. rewrite (route_loop_none _ _ _ _ Hnone). simpl.
    by rewrite Hmatch.
  - intros Hsome.
    destruct (route_loop_cases urlMatches (context_routes (_browserContext page))
                rt request)
      as [[_ Hnone]|(sk & en & rs & _ & _ & _ & ->)]; [by destruct Hsome|done].
Qed.

End WithMatcher.


Lemma earlier_routes_keep_priority_witness :
  _requestStarted exact_url (route "http://a.test/x" 9 two_route_page).1 sample_request
  = _requestStarted exact_url two_route_page sample_request
  ∧ _requestStarted exact_url (route "http://a.test/x" 9 unrouted_page).1 sample_request
    = [EmitRequest sample_request; InvokeHandler 9 7 sample_request].
Proof.
  destruct (earlier_routes_keep_priority exact_url two_route_page sample_request 7
              "http://a.test/x" 9 eq_refl) as (Hkept & _ & _).
  destruct (earlier_routes_keep_priority exact_url unrouted_page sample_request 7
              "http://a.test/x" 9 eq_refl) as (_ & Hnew & _).
  split.
  - apply Hkept. intros Hnone. apply Forall_cons in Hnone as [Hfirst _].
    vm_compute in Hfirst. discriminate.
  - apply Hnew; [|reflexivity]. repeat constructor.
Defined.

End Interception.

(** ** Closing a page (page.ts) *)

Module PageLifecycle.

(** The fields [_didClose], [_didDisconnect] and [close] read and write;
    [_ownedContext] is kept as whether there is one. *)
Record Page := { _closed : bool; _disconnected : bool; _ownedContext : bool }.

Inductive Effect :=
| EmitClose                                (* this.emit(Events.Page.Close) *)
| ClosedCallback                           (* this._closedCallback() *)
| DisconnectedCallback (message : string)  (* this._disconnectedCallback(new Error('Target closed')) *)
| ClosePage (runBeforeUnload : bool)       (* await this._delegate.closePage(runBeforeUnload) *)
| AwaitClosed                              (* await this._closedPromise *)
| CloseOwnedContext.                       (* await this._ownedContext.close() *)

(** [Page._didClose]. *)
Definition _didClose (page : Page) : Page * (string + list Effect) :=
  if _closed page then (page, inl "Page closed twice")
  else ({| _closed := true; _disconnected := _disconnected page;
           _ownedContext := _ownedContext page |},
        inr [EmitClose; ClosedCallback]).

(** [Page._didDisconnect]. *)
Definition _didDisconnect (page : Page) : Page * (string + list Effect) :=
  if _disconnected page then (page, inl "Page disconnected twice")
  else ({| _closed := _closed page; _disconnected := true;
           _ownedContext := _ownedContext page |},
        inr [DisconnectedCallback "Target closed"]).

(** [Page.close]; [runBeforeUnload] is [None] when the option is left
    out.  The method itself writes no field. *)
Definition close (runBeforeUnload : option bool) (page : Page) : string + list Effect :=
  if _closed page then inr []
  else if _disconnected page then
    inl "Protocol error: Connection closed. Most likely the page has been closed."
  else
    let runBeforeUnload := default false runBeforeUnload in
    inr (ClosePage runBeforeUnload
         :: (if runBeforeUnload then [] else [AwaitClosed])
         ++ (if _ownedContext page then [CloseOwnedContext] else [])).

(** [n] calls of [_didClose] in a row, with what each returned. *)
Fixpoint didClose_times (n : nat) (page : Page) : Page * list (string + list Effect) :=
  match n with
  | 0 => (page, [])
  | S n =>
      let '(page', result) := _didClose page in
      let '(page'', results) := didClose_times n page' in
      (page'', result :: results)
  end.

Lemma didClose_closed n page :
  _closed page = true →
  didClose_times n page = (page, replicate n (inl "Page closed twice")).
Proof.
  intros Hclosed. induction n as [|n IH]; simpl; [done|].
  unfold _didClose. rewrite Hclosed. by rewrite IH.
Qed.

(** However often [_didClose] is called on an open page, the Close event
    goes out once, on the first call; every later call fails with "Page
    closed twice" and changes nothing.  From then on [close()] returns
    without asking the delegate for anything, also on a page that was
    disconnected; on a page that was disconnected and never closed it
    fails its assertion instead. *)
Theorem page_closes_once (n : nat) (page : Page) (runBeforeUnload : option bool) :
  _closed page = false →
  let closed := {| _closed := true; _disconnected := _disconnected page;
                   _ownedContext := _ownedContext page |} in
  didClose_times (S n) page
  = (closed, inr [EmitClose; ClosedCallback] :: replicate n (inl "Page closed twice"))
  ∧ close runBeforeUnload (didClose_times (S n) page).1 = inr []
  ∧ (_disconnected page = true →
     close runBeforeUnload page
     = inl "Protocol error: Connection closed. Most likely the page has been closed.").
Proof.
  intros Hopen closed.
  assert (Hrun : didClose_times (S n) page
                 = (closed, inr [EmitClose; ClosedCallback]
                            :: replicate n (inl "Page closed twice"))).
  { simpl. unfold _didClose. rewrite Hopen. fold closed.
    by rewrite (didClose_closed n closed). }
  split; [exact Hrun|]. rewrite Hrun. split; [done|].
  intros Hdisconnected. unfold close. by rewrite Hopen, Hdisconnected.
Qed.

Lemma page_closes_once_witness :
  didClose_times 3 {| _closed := false; _disconnected := true; _ownedContext := false |}
  = ({| _closed := true; _disconnected := true; _ownedContext := false |},
     [inr [EmitClose; ClosedCallback]; inl "Page closed twice"; inl "Page closed twice"]).
Proof.
  apply (page_closes_once 2
           {| _closed := false; _disconnected := true; _ownedContext := false |} None).
  reflexivity.
Defined.

End PageLifecycle.

(** ** The workers of a page (page.ts) *)

Module Workers.

(** A JavaScript [Map] with string keys, as the list of its entries in
    insertion order; keys occur once. *)
Fixpoint map_get {V} (k : string) (m : list (string * V)) : option V :=
  match m with
  | [] => None
  | (k', v) :: rest => if decide (k' = k) then Some v else map_get k rest
  end.

(** [map.set(k, v)]: an existing key keeps its place. *)
Fixpoint map_set {V} (k : string) (v : V) (m : list (string * V)) : list (string * V) :=
  match m with
  | [] => [(k, v)]
  | (k', v') :: rest =>
      if decide (k' = k) then (k, v) :: rest else (k', v') :: map_set k v rest
  end.

Definition map_delete {V} (k : string) (m : list (string * V)) : list (string * V) :=
  filter (λ entry, entry.1 ≠ k) m.

(** A worker object, told apart by a number. *)
Definition Worker := nat.

Record Page := { _workers : list (string * Worker) }.

Inductive Effect :=
| PageEmitWorker (worker : Worker)     (* this.emit(Events.Page.Worker, worker) *)
| WorkerEmitClose (worker : Worker).   (* worker.emit(Events.Worker.Close, worker) *)

(** [Page.workers]. *)
Definition workers (page : Page) : list Worker := (_workers page).*2.

(** [Page._addWorker]. *)
Definition _addWorker (workerId : string) (worker : Worker) (page : Page)
  : Page * list Effect :=
  ({| _workers := map_set workerId worker (_workers page) |}, [PageEmitWorker worker]).

(** [Page._removeWorker]. *)
Definition _removeWorker (workerId : string) (page : Page) : Page * list Effect :=
  match map_get workerId (_workers page) with
  | None => (page, [])
  | Some worker =>
      ({| _workers := map_delete workerId (_workers page) |}, [WorkerEmitClose worker])
  end.

(** The loop of [_clearWorkers].  The iteration deletes the entry it is
    at and no other, so it reaches every entry the map had. *)
Fixpoint clear_loop (entries : list (string * Worker)) (current : list (string * Worker))
  : list (string * Worker) * list Effect :=
  match entries with
  | [] => (current, [])
  | (workerId, worker) :: rest =>
      let '(final, effects) := clear_loop rest (map_delete workerId current) in
      (final, WorkerEmitClose worker :: effects)
  end.

(** [Page._clearWorkers]. *)
Definition _clearWorkers (page : Page) : Page * list Effect :=
  let '(final, effects) := clear_loop (_workers page) (_workers page) in
  ({| _workers := final |}, effects).

Lemma map_get_None {V} k (m : list (string * V)) : map_get k m = None ↔ k ∉ m.*1.
Proof.
  induction m as [|[k' v] m IH]; simpl.
  - split; [intros _; apply not_elem_of_nil|done].
  - rewrite not_elem_of_cons. destruct (decide (k' = k)) as [->|Hne].
    + split; [done|]. by intros [? _].
    + rewrite IH. split; [|by intros [_ ?]]. intros Hnot. split; [congruence|done].
Qed.

Lemma map_delete_absent {V} k (m : list (string * V)) : k ∉ m.*1 → map_delete k m = m.
Proof.
  induction m as [|[k' v] m IH]; simpl; [done|].
  rewrite not_elem_of_cons. intros [Hne Hnot]. unfold map_delete in *.
  rewrite filter_cons_True by (simpl; congruence). by rewrite IH.
Qed.

Lemma map_set_fresh {V} k v (m : list (string * V)) : k ∉ m.*1 → map_set k v m = m ++ [(k, v)].
Proof.
  induction m as [|[k' v'] m IH]; simpl; [done|].
  rewrite not_elem_of_cons. intros [Hne Hnot].
  rewrite decide_False by congruence. by rewrite IH.
Qed.

Lemma map_set_keys {V} k v (m : list (string * V)) :
  k ∈ m.*1 → (map_set k v m).*1 = m.*1.
Proof.
  induction m as [|[k' v'] m IH]; simpl.
  - intros Hin. by apply elem_of_nil in Hin.
  - intros Hin. destruct (decide (k' = k)) as [->|Hne]; [done|]. simpl.
    f_equal. apply IH. apply elem_of_cons in Hin as [?|?]; [congruence|done].
Qed.

Lemma map_delete_keys {V} k (m : list (string * V)) :
  (map_delete k m).*1 = filter (λ k', k' ≠ k) m.*1.
Proof.
  unfold map_delete. induction m as [|[k' v'] m IH]; [done|].
  rewrite fmap_cons, !filter_cons. simpl.
  destruct (decide (k' ≠ k)); [|exact IH].
  rewrite fmap_cons. simpl. f_equal. exact IH.
Qed.

Lemma filter_all {A} (P : A → Prop) `{!∀ x, Decision (P x)} (l : list A) :
  Forall P l → filter P l = l.
Proof.
  induction 1 as [|x l Hx _ IH]; [done|].
  by rewrite filter_cons_True, IH.
Qed.

Lemma filter_none {A} (P : A → Prop) `{!∀ x, Decision (P x)} (l : list A) :
  Forall (λ x, ¬ P x) l → filter P l = [].
Proof.
  induction 1 as [|x l Hx _ IH]; [done|].
  by rewrite filter_cons_False, IH.
Qed.

Lemma clear_loop_spec entries current :
  (clear_loop entries current).2 = WorkerEmitClose <$> entries.*2
  ∧ (clear_loop entries current).1
    = filter (λ entry, entry.1 ∉ entries.*1) current.
Proof.
  revert current. induction entries as [|[k w] entries IH]; intros current; simpl.
  - split; [done|]. symmetry. apply filter_all, Forall_forall.
    intros entry _. apply not_elem_of_nil.
  - destruct (clear_loop entries (map_delete k current)) as [final effects] eqn:Hloop.
    destruct (IH (map_delete k current)) as [Heffects Hfinal].
    rewrite Hloop in Heffects, Hfinal. simpl in *. subst.
    split; [done|]. unfold map_delete. rewrite list_filter_filter.
    apply list_filter_iff. intros [k' w']. simpl. rewrite not_elem_of_cons. tauto.
Qed.

Lemma clear_loop_self m :
  clear_loop m m = ([], WorkerEmitClose <$> m.*2).
Proof.
  destruct (clear_loop m m) as [final effects] eqn:Hloop.
  pose proof (clear_loop_spec m m) as [Heffects Hfinal].
  rewrite Hloop in Heffects, Hfinal. simpl in *. subst. f_equal.
  apply filter_none, Forall_forall. intros [k w] Hin Hnot. simpl in Hnot.
  destruct Hnot. apply list_elem_of_fmap. by exists (k, w).
Qed.

(** Removing a worker id the page does not know does nothing and closes
    nothing.  Adding a worker under a new id and removing it again gives
    back the map as it was, and closes that worker.  Adding never changes
    the set of ids when the id is known, and the three operations keep
    the ids distinct. *)
Theorem worker_added_then_removed
    (workerId : string) (worker : Worker) (page : Page) :
  NoDup (_workers page).*1 →
  (workerId ∉ (_workers page).*1 →
   _removeWorker workerId page = (page, [])
   ∧ _removeWorker workerId (_addWorker workerId worker page).1
     = (page, [WorkerEmitClose worker])
   ∧ workers (_addWorker workerId worker page).1 = workers page ++ [worker])
  ∧ (workerId ∈ (_workers page).*1 →
     (_workers (_addWorker workerId worker page).1).*1 = (_workers page).*1
     ∧ map_get workerId (_workers (_addWorker workerId worker page).1) = Some worker)
  ∧ NoDup (_workers (_addWorker workerId worker page).1).*1
  ∧ NoDup (_workers (_removeWorker workerId page).1).*1
  ∧ NoDup (_workers (_clearWorkers page).1).*1.
Proof.
  intros Hnodup. destruct page as [m]. simpl in *.
  split; [|split; [|split; [|split]]].
  - intros Hfresh. unfold _removeWorker, _addWorker, workers. simpl.
    rewrite (proj2 (map_get_None workerId m) Hfresh).
    rewrite map_set_fresh by done. split; [done|]. split.
    + assert (Hget : map_get workerId (m ++ [(workerId, worker)]) = Some worker).
      { clear Hnodup. induction m as [|[k v] m IH]; simpl.
        - by rewrite decide_True.
        - rewrite fmap_cons in Hfresh. simpl in Hfresh.
          apply not_elem_of_cons in Hfresh as [Hne Hfresh].
          rewrite decide_False by congruence. by apply IH. }
      rewrite Hget. f_equal. f_equal. unfold map_delete.
      rewrite filter_app, filter_cons_False, filter_nil, app_nil_r by (simpl; tauto).
      by apply map_delete_absent.
    + by rewrite fmap_app.
  - intros Hknown. split; [by apply map_set_keys|].
    clear Hnodup. induction m as [|[k v] m IH]; simpl.
    + by apply elem_of_nil in Hknown.
    + destruct (decide (k = workerId)) as [->|Hne]; simpl.
      * by rewrite decide_True.
      * rewrite decide_False by done. apply IH.
        rewrite fmap_cons in Hknown. simpl in Hknown.
        apply elem_of_cons in Hknown as [?|?]; [congruence|done].
  - destruct (decide (workerId ∈ m.*1)).
    + by rewrite map_set_keys.
    + rewrite map_set_fresh, fmap_app by done. simpl.
      apply NoDup_app. split; [done|]. split; [|apply NoDup_singleton].
      intros k Hk Hk'. apply list_elem_of_singleton in Hk'. by subst.
  - unfold _removeWorker. simpl. destruct (map_get workerId m); simpl; [|done].
    rewrite map_delete_keys. by apply NoDup_filter.
  - unfold _clearWorkers. simpl. rewrite clear_loop_self. simpl. constructor.
Qed.

Lemma worker_added_then_removed_witness :
  _removeWorker "w2" (_addWorker "w2" 2 {| _workers := [("w1", 1)] |}).1
  = ({| _workers := [("w1", 1)] |}, [WorkerEmitClose 2]).
Proof.
  destruct (worker_added_then_removed "w2" 2 {| _workers := [("w1", 1)] |})
    as ((_ & Hround & _) & _).
  - simpl. apply NoDup_singleton.
  - simpl. intros Hin. apply list_elem_of_singleton in Hin. discriminate.
  - exact Hround.
Defined.

(** [_clearWorkers] closes every worker the page has, once each and in
    the order they were added, and leaves the page without workers. *)
Theorem clear_workers_closes_all (page : Page) :
  (_clearWorkers page).2 = WorkerEmitClose <$> workers page
  ∧ workers (_clearWorkers page).1 = [].
Proof.
  unfold _clearWorkers, workers. by rewrite clear_loop_self.
Qed.

End Workers.

(** ** File-chooser interception follows the listeners (page.ts) *)

Module FileChooser.

Section WithEvent.

(** [Events.Page.FileChooser], a constant of events.ts. *)
Variable FileChooserEvent : string.

(** Listeners are callbacks, told apart by a number. *)
Definition Listener := nat.

(** The emitter part of a page: its listeners in the order they were
    added, and the calls of [this._delegate.setFileChooserIntercepted]
    made so far, oldest first. *)
Record Page := {
  listeners : list (string * Listener);
  interceptions : list bool
}.

(** [emitter.listenerCount(event)]. *)
Definition listenerCount (event : string) (page : Page) : nat :=
  length (filter (λ entry, entry.1 = event) (listeners page)).

(** [EventEmitter.prototype.removeListener]: the instance added last is
    the one taken out, and at most one. *)
Fixpoint remove_last (x : string * Listener) (l : list (string * Listener))
  : list (string * Listener) :=
  match l with
  | [] => []
  | y :: rest =>
      if decide (x ∈ rest) then y :: remove_last x rest
      else if decide (y = x) then rest
      else y :: rest
  end.

(** [Page.on]. *)
Definition on (event : string) (listener : Listener) (page : Page) : Page :=
  {| listeners := listeners page ++ [(event, listener)];
     interceptions :=
       if decide (event = FileChooserEvent) then
         if decide (listenerCount event page = 0)
         then interceptions page ++ [true]
         else interceptions page
       else interceptions page |}.

(** [Page.removeListener]. *)
Definition removeListener (event : string) (listener : Listener) (page : Page) : Page :=
  let removed := {| listeners := remove_last (event, listener) (listeners page);
                    interceptions := interceptions page |} in
  {| listeners := listeners removed;
     interceptions :=
       if decide (event = FileChooserEvent) then
         if decide (listenerCount event removed = 0)
         then interceptions page ++ [false]
         else interceptions page
       else interceptions page |}.

Inductive Call :=
| On (event : string) (listener : Listener)
| RemoveListener (event : string) (listener : Listener).

Definition call (page : Page) (c : Call) : Page :=
  match c with
  | On event listener => on event listener page
  | RemoveListener event listener => removeListener event listener page
  end.

(** What the delegate was last told; nothing is intercepted before the
    first call. *)
Definition intercepted (page : Page) : bool := default false (last (interceptions page)).

Definition new_page : Page := {| listeners := []; interceptions := [] |}.

Definition in_step (page : Page) : Prop :=
  intercepted page = bool_decide (0 < listenerCount FileChooserEvent page)%nat.

Lemma remove_last_filter (P : string * Listener → Prop) `{!∀ x, Decision (P x)} x l :
  (¬ P x → filter P (remove_last x l) = filter P l)
  ∧ (length (filter P (remove_last x l)) ≤ length (filter P l))%nat.
Proof.
  induction l as [|y l [IHeq IHle]]; simpl; [done|].
  destruct (decide (x ∈ l)).
  - rewrite !filter_cons. destruct (decide (P y)); simpl.
    + split; [intros Hx; by rewrite IHeq|lia].
    + done.
  - destruct (decide (y = x)) as [->|Hne]; [|done].
    rewrite filter_cons. destruct (decide (P x)); simpl.
    + split; [done|lia].
    + done.
Qed.

Lemma intercepted_snoc page b listeners' :
  intercepted {| listeners := listeners'; interceptions := interceptions page ++ [b] |} = b.
Proof. unfold intercepted. simpl. by rewrite last_snoc. Qed.

Lemma call_in_step page c : in_step page → in_step (call page c).
Proof.
  unfold in_step. intros Hpage. destruct c as [event listener|event listener]; simpl.
  - unfold on. destruct (decide (event = FileChooserEvent)) as [->|Hne].
    + assert (Hcount : listenerCount FileChooserEvent
                         {| listeners := listeners page ++ [(FileChooserEvent, listener)];
                            interceptions := interceptions page |}
                       = S (listenerCount FileChooserEvent page)).
      { unfold listenerCount. simpl.
        rewrite filter_app, filter_cons_True, filter_nil, length_app by done.
        simpl. lia. }
      destruct (decide (listenerCount FileChooserEvent page = 0)) as [Hzero|Hsome].
      * rewrite intercepted_snoc. unfold listenerCount in *. simpl in *.
        rewrite Hcount. by rewrite bool_decide_true by lia.
      * unfold intercepted, listenerCount in *. simpl in *.
        rewrite Hpage, Hcount. rewrite !bool_decide_true by lia. done.
    + unfold intercepted, listenerCount in *. simpl.
      rewrite filter_app, filter_cons_False, filter_nil, app_nil_r by (simpl; congruence).
      exact Hpage.
  - unfold removeListener. simpl.
    destruct (remove_last_filter (λ entry, entry.1 = FileChooserEvent)
                (event, listener) (listeners page)) as [Hsame Hle].
    destruct (decide (event = FileChooserEvent)) as [->|Hne].
    + destruct (decide (listenerCount FileChooserEvent _ = 0)) as [Hzero|Hsome].
      * rewrite intercepted_snoc. unfold listenerCount in *. simpl in *.
        rewrite Hzero. by rewrite bool_decide_false by lia.
      * unfold intercepted, listenerCount in *. simpl in *.
        rewrite Hpage. rewrite !bool_decide_true by lia. done.
    + unfold intercepted, listenerCount in *. simpl.
      rewrite Hsame by (simpl; congruence). exact Hpage.
Qed.

(** After any sequence of [on] and [removeListener] calls on a new page,
    the delegate has file-chooser interception switched on exactly when
    the page has a listener for the file-chooser event. *)
Theorem interception_follows_listeners (calls : list Call) :
  intercepted (foldl call new_page calls)
  = bool_decide (0 < listenerCount FileChooserEvent (foldl call new_page calls))%nat.
Proof.
  change (in_step (foldl call new_page calls)).
  assert (Hnew : in_step new_page) by done.
  revert Hnew. generalize new_page.
  induction calls as [|c calls IH]; intros page Hpage; simpl; [done|].
  apply IH. by apply call_in_step.
Qed.

End WithEvent.

End FileChooser.

(** ** What validated options look like *)

Module ValidatedOptions.
Import Options.

Section WithHeaders.

Context {Headers : Type}.
Variable verifyHeaders : Headers → string + Headers.

Lemma validate_inr (options result : BrowserContextOptions Headers)
    (heap heap' : gmap nat Size) :
  (∀ l, viewport options = ViewportAt l → is_Some (heap !! l)) →
  validateBrowserContextOptions verifyHeaders options heap = inr (result, heap') →
  viewport_validated (viewport options) heap (viewport result) heap'
  ∧ match geolocation options with
    | None => geolocation result = None
    | Some g =>
        geolocation result
        = Some {| longitude := longitude g; latitude := latitude g;
                  accuracy := Some (accuracy_or_zero (accuracy g)) |}
        ∧ verifyGeolocation g
          = inr {| longitude := longitude g; latitude := latitude g;
                   accuracy := Some (accuracy_or_zero (accuracy g)) |}
    end.
Proof.
  intros Hwf. pose proof (viewport_steps (viewport options) heap Hwf) as Hviewport.
  unfold validateBrowserContextOptions.
  destruct (default_missing_viewport (viewport options) heap) as [v1 heap1].
  simpl in Hviewport.
  destruct (copy_viewport v1 heap1) as [v2 heap2]. simpl in Hviewport.
  destruct (geolocation options) as [g|].
  - destruct (verifyGeolocation g) as [error|g'] eqn:Hverify; [done|].
    pose proof (verifyGeolocation_inr _ _ Hverify) as (-> & _).
    destruct (extraHTTPHeaders options) as [headers|].
    + destruct (verifyHeaders headers); [done|]. by intros [= <- <-].
    + by intros [= <- <-].
  - destruct (extraHTTPHeaders options) as [headers|].
    + destruct (verifyHeaders headers); [done|]. by intros [= <- <-].
    + by intros [= <- <-].
Qed.

End WithHeaders.

End ValidatedOptions.

(** ** The viewport of a page (page.ts, on validated context options) *)

Module PageViewport.
Import Options.

(** The viewport statements of the [Page] constructor:
    [let viewportSize = null;
     if (browserContext._options.viewport)
       viewportSize = { width: ...viewport.width, height: ...viewport.height }].
    The result is the reference kept in [_state.viewportSize]. *)
Definition constructor_viewport (v : Viewport) (heap : gmap nat Size)
  : option nat * gmap nat Size :=
  match v with
  | ViewportAt l =>
      match heap !! l with
      | Some size =>
          let l' := fresh (dom heap) in
          (Some l', <[l' := {| width := width size; height := height size |}]> heap)
      | None => (None, heap)
      end
  | _ => (None, heap)
  end.

(** [Page.setViewportSize]: [this._state.viewportSize = { ...viewportSize }]. *)
Definition setViewportSize (viewportSize : nat) (heap : gmap nat Size)
  : option nat * gmap nat Size :=
  match heap !! viewportSize with
  | Some size => let l' := fresh (dom heap) in (Some l', <[l' := size]> heap)
  | None => (None, heap)
  end.

(** [Page.viewportSize], read through the heap. *)
Definition viewportSize (state : option nat) (heap : gmap nat Size) : option Size :=
  match state with
  | Some l => heap !! l
  | None => None
  end.

Section WithHeaders.

Context {Headers : Type}.
Variable verifyHeaders : Headers → string + Headers.

(** A page constructed in a context whose options went through
    [validateBrowserContextOptions] reports 1280 by 720 when the caller
    left the viewport out, no viewport when the caller passed [null], and
    the caller's width and height otherwise.  The object it reports is a
    new one: neither the caller's nor the one in the context's options.
    Setting the page's viewport afterwards again makes a new object, so
    no object that existed is written to. *)
Theorem page_viewport_from_options
    (options result : BrowserContextOptions Headers) (heap heap' : gmap nat Size)
    (size : nat) :
  (∀ l, viewport options = ViewportAt l → is_Some (heap !! l)) →
  validateBrowserContextOptions verifyHeaders options heap = inr (result, heap') →
  let page := constructor_viewport (viewport result) heap' in
  match viewport options with
  | ViewportMissing => viewportSize page.1 page.2 = Some default_viewport
  | ViewportNull => viewportSize page.1 page.2 = None
  | ViewportAt l => viewportSize page.1 page.2 = heap !! l
  end
  ∧ (∀ l, page.1 = Some l →
          viewport options ≠ ViewportAt l ∧ viewport result ≠ ViewportAt l
          ∧ heap' !! l = None)
  ∧ (∀ l, is_Some (heap' !! l) → page.2 !! l = heap' !! l)
  ∧ (is_Some (page.2 !! size) →
     let set := setViewportSize size page.2 in
     viewportSize set.1 set.2 = page.2 !! size
     ∧ (∀ l, is_Some (page.2 !! l) → set.2 !! l = page.2 !! l ∧ set.1 ≠ Some l)).
Proof.
  intros Hwf Hrun.
  destruct (ValidatedOptions.validate_inr verifyHeaders options result heap heap' Hwf Hrun)
    as ([Hviewport Hkept] & _).
  assert (Hcopy : ∀ l s (h : gmap nat Size), h !! l = Some s → 
            constructor_viewport (ViewportAt l) h
            = (Some (fresh (dom h)), <[fresh (dom h) := s]> h)).
  { intros l s h Hl. unfold constructor_viewport. rewrite Hl. by destruct s. }
  cbv zeta. split; [|split; [|split]].
  - destruct (viewport options) as [| |l0].
    + destruct Hviewport as (l & -> & _ & Hl). rewrite (Hcopy _ _ _ Hl). simpl.
      apply lookup_insert_eq.
    + by rewrite Hviewport.
    + destruct Hviewport as (l & -> & _ & _ & Hl).
      destruct (Hwf l0 eq_refl) as [s Hs]. rewrite Hs in Hl.
      rewrite (Hcopy _ _ _ Hl). simpl. rewrite Hs. apply lookup_insert_eq.
  - intros l Hpage.
    assert (Hfresh : heap' !! l = None).
    { unfold constructor_viewport in Hpage.
      destruct (viewport result) as [| |l1]; try discriminate.
      destruct (heap' !! l1); [|discriminate].
      injection Hpage as <-. apply fresh_unused. }
    split; [|split; [|done]].
    + intros Hl. destruct (Hwf l Hl) as [s Hs].
      rewrite Hkept in Hfresh by (by eexists). congruence.
    + intros Hl. rewrite Hl in Hviewport.
      destruct (viewport options) as [| |l0].
      * destruct Hviewport as (l1 & Heq & _ & Hl1). injection Heq as <-. congruence.
      * discriminate.
      * destruct Hviewport as (l1 & Heq & _ & _ & Hl1). injection Heq as <-.
        destruct (Hwf l0 eq_refl) as [s Hs]. congruence.
  - intros l Hl. unfold constructor_viewport.
    destruct (viewport result) as [| |l1]; try done.
    destruct (heap' !! l1); [|done]. simpl. by apply insert_fresh_keeps.
  - intros [s Hs]. cbv zeta. unfold setViewportSize. rewrite Hs. simpl.
    split; [apply lookup_insert_eq|].
    intros l Hl. split; [by apply insert_fresh_keeps|].
    intros Heq. injection Heq as Heq. rewrite <- Heq, fresh_unused in Hl.
    by destruct Hl.
Qed.

End WithHeaders.

Lemma page_viewport_from_options_witness :
  ∃ result heap',
    validateBrowserContextOptions strings_only (plain_options ViewportMissing None None) ∅
    = inr (result, heap')
    ∧ viewportSize (constructor_viewport (viewport result) heap').1
        (constructor_viewport (viewport result) heap').2
      = Some {| width := num 1280; height := num 720 |}.
Proof.
  destruct (validateBrowserContextOptions strings_only
              (plain_options ViewportMissing None None) ∅)
    as [error|[result heap']] eqn:Hrun.
  { vm_compute in Hrun. discriminate. }
  exists result, heap'. split; [reflexivity|].
  apply (page_viewport_from_options strings_only
           (plain_options ViewportMissing None None) result ∅ heap' 0).
  - intros l Hl. discriminate.
  - exact Hrun.
Defined.

End PageViewport.

(** ** Permissions of a browser context (browserContext.ts, crBrowser.ts, wkBrowser.ts) *)

Module Permissions.
Import Workers.

(** A JavaScript [Set] of strings, as the list of its values in insertion
    order: [set.add(p)]. *)
Definition set_add (s : list string) (p : string) : list string :=
  if decide (p ∈ s) then s else s ++ [p].

(** [new Set(list)]. *)
Definition set_from (l : list string) : list string := foldl set_add [] l.

(** A protocol call: the method, the origin and the permissions sent. *)
Inductive Call :=
| GrantPermissions (method : string) (origin : string) (permissions : list string)
| ResetPermissions (method : string).

(** The [permissions.map(...)] of both [_doGrantPermissions]: the first
    permission without an entry in the table throws. *)
Fixpoint to_protocol (table : list (string * string)) (permissions : list string)
  : string + list string :=
  match permissions with
  | [] => inr []
  | permission :: rest =>
      match map_get permission table with
      | None => inl ("Unknown permission: " +:+ permission)
      | Some protocolPermission =>
          match to_protocol table rest with
          | inl error => inl error
          | inr filtered => inr (protocolPermission :: filtered)
          end
      end
  end.

(** The table of [CRBrowserContext._doGrantPermissions]. *)
Definition chromium_permissions : list (string * string) :=
  [("geolocation", "geolocation"); ("midi", "midi"); ("notifications", "notifications");
   ("camera", "videoCapture"); ("microphone", "audioCapture");
   ("background-sync", "backgroundSync"); ("ambient-light-sensor", "sensors");
   ("accelerometer", "sensors"); ("gyroscope", "sensors"); ("magnetometer", "sensors");
   ("accessibility-events", "accessibilityEvents");
   ("clipboard-read", "clipboardReadWrite"); ("clipboard-write", "clipboardSanitizedWrite");
   ("payment-handler", "paymentHandler"); ("midi-sysex", "midiSysex")].

(** The table of [WKBrowserContext._doGrantPermissions]. *)
Definition webkit_permissions : list (string * string) := [("geolocation", "geolocation")].

(** [_doGrantPermissions] of an engine, given its table and the method it
    sends. *)
Definition _doGrantPermissions (table : list (string * string)) (method : string)
    (origin : string) (permissions : list string) : string + list Call :=
  match to_protocol table permissions with
  | inl error => inl error
  | inr filtered => inr [GrantPermissions method origin filtered]
  end.

Definition chromium_doGrantPermissions :=
  _doGrantPermissions chromium_permissions "Browser.grantPermissions".
Definition webkit_doGrantPermissions :=
  _doGrantPermissions webkit_permissions "Playwright.grantPermissions".

Section WithEngine.

(** [new URL(text).origin], which throws on text that is no URL; and the
    engine's [_doGrantPermissions]. *)
Variable url_origin : string → string + string.
Variable doGrantPermissions : string → list string → string + list Call.

(** [BrowserContextBase.grantPermissions] on the [_permissions] map;
    [origin] is [None] when no options or no origin are given. *)
Definition grantPermissions (permissions : list string) (origin : option string)
    (_permissions : gmap string (list string))
  : gmap string (list string) * (string + list Call) :=
  match
    match Lifecycle.truthy origin with
    | Some text => url_origin text
    | None => inr "*"
    end
  with
  | inl error => (_permissions, inl error)
  | inr origin =>
      let existing := set_from (default [] (_permissions !! origin)) in
      let list := foldl set_add existing permissions in
      (<[origin := list]> _permissions, doGrantPermissions origin list)
  end.

End WithEngine.

(** [BrowserContextBase.clearPermissions]; [method] is what the engine's
    [_doClearPermissions] sends. *)
Definition clearPermissions (method : string) (_permissions : gmap string (list string))
  : gmap string (list string) * list Call :=
  (∅, [ResetPermissions method]).

Lemma set_add_spec s p :
  NoDup s →
  NoDup (set_add s p) ∧ (∀ q, q ∈ set_add s p ↔ q ∈ s ∨ q = p) ∧ s `prefix_of` set_add s p.
Proof.
  intros Hs. unfold set_add. destruct (decide (p ∈ s)) as [Hin|Hnot].
  - split; [done|]. split; [|done]. intros q. split; [by left|].
    intros [?| ->]; done.
  - split; [|split].
    + apply NoDup_app. split; [done|]. split; [|apply NoDup_singleton].
      intros q Hq Hq'. apply list_elem_of_singleton in Hq'. by subst.
    + intros q. rewrite elem_of_app, list_elem_of_singleton. done.
    + by exists [p].
Qed.

Lemma foldl_set_add_spec permissions s :
  NoDup s →
  NoDup (foldl set_add s permissions)
  ∧ (∀ q, q ∈ foldl set_add s permissions ↔ q ∈ s ∨ q ∈ permissions)
  ∧ s `prefix_of` foldl set_add s permissions.
Proof.
  revert s. induction permissions as [|p permissions IH]; intros s Hs; simpl.
  - split; [done|]. split; [|done]. intros q. split; [by left|].
    intros [?|Hin]; [done|]. by apply elem_of_nil in Hin.
  - destruct (set_add_spec s p Hs) as (Hnodup & Hmem & Hprefix).
    destruct (IH _ Hnodup) as (Hnodup' & Hmem' & Hprefix').
    split; [done|]. split; [|by etrans].
    intros q. rewrite Hmem', Hmem, elem_of_cons. tauto.
Qed.

Lemma foldl_set_add_fresh l s : NoDup (s ++ l) → foldl set_add s l = s ++ l.
Proof.
  revert s. induction l as [|p l IH]; intros s Hnodup; simpl.
  - by rewrite app_nil_r.
  - assert (Hp : p ∉ s).
    { apply NoDup_app in Hnodup as (_ & Hdisjoint & _). intros Hin.
      apply (Hdisjoint p Hin). apply elem_of_cons. by left. }
    unfold set_add at 2. rewrite decide_False by done.
    rewrite IH; rewrite <- app_assoc; done.
Qed.

Lemma set_from_NoDup l : NoDup l → set_from l = l.
Proof. intros Hl. unfold set_from. by rewrite foldl_set_add_fresh. Qed.

Lemma to_protocol_known table permissions :
  (∃ filtered, to_protocol table permissions = inr filtered)
  ↔ Forall (λ p, is_Some (map_get p table)) permissions.
Proof.
  induction permissions as [|p permissions IH]; simpl.
  - split; [constructor|by eexists].
  - rewrite Forall_cons. destruct (map_get p table) as [pp|].
    + destruct (to_protocol table permissions) as [error|filtered].
      * split; [intros [? ?]; discriminate|].
        intros [_ Hall]. apply IH in Hall as [? ?]. discriminate.
      * split; [|by eexists]. intros _. split; [by eexists|].
        apply IH. by eexists.
    + split; [intros [? ?]; discriminate|]. intros [[? ?] _]. discriminate.
Qed.

(** Every list in the map is the value list of a set. *)
Definition sets (_permissions : gmap string (list string)) : Prop :=
  ∀ origin list, _permissions !! origin = Some list → NoDup list.

Section Accumulation.

Variable url_origin : string → string + string.
Variable doGrantPermissions : string → list string → string + list Call.

(** Granting adds to what the origin already has: the list recorded for
    the origin afterwards starts with the list recorded before, holds
    exactly the old and the new permissions, each once, and no other
    origin is touched.  This holds whether or not the engine accepts the
    permissions.  When the origin is not a URL nothing is recorded. *)
Theorem grants_accumulate
    (permissions : list string) (origin : option string)
    (_permissions : gmap string (list string)) :
  sets _permissions →
  match
    match Lifecycle.truthy origin with
    | Some text => url_origin text
    | None => inr "*"
    end
  with
  | inl error =>
      grantPermissions url_origin doGrantPermissions permissions origin _permissions
      = (_permissions, inl error)
  | inr o =>
      let granted :=
        (grantPermissions url_origin doGrantPermissions permissions origin _permissions).1 in
      ∃ list,
        granted !! o = Some list
        ∧ NoDup list
        ∧ default [] (_permissions !! o) `prefix_of` list
        ∧ (∀ p, p ∈ list ↔ p ∈ default [] (_permissions !! o) ∨ p ∈ permissions)
        ∧ (∀ other, other ≠ o → granted !! other = _permissions !! other)
        ∧ sets granted
  end.
Proof.
  intros Hsets. unfold grantPermissions.
  destruct (match Lifecycle.truthy origin with
            | Some text => url_origin text
            | None => inr "*"
            end) as [error|o]; [done|].
  simpl.
  assert (Hold : NoDup (default [] (_permissions !! o))).
  { destruct (_permissions !! o) eqn:Ho; simpl; [by eapply Hsets|constructor]. }
  rewrite (set_from_NoDup _ Hold).
  destruct (foldl_set_add_spec permissions _ Hold) as (Hnodup & Hmem & Hprefix).
  eexists. split; [apply lookup_insert_eq|].
  split; [done|]. split; [done|]. split; [done|]. split.
  - intros other Hother. by apply lookup_insert_ne.
  - intros o' l'. destruct (decide (o = o')) as [<-|Hne].
    + rewrite lookup_insert_eq. by intros [= <-].
    + rewrite lookup_insert_ne by done. apply Hsets.
Qed.

End Accumulation.

Definition plain_origin (text : string) : string + string := inr text.

Lemma grants_accumulate_witness :
  ∃ list,
    (grantPermissions plain_origin chromium_doGrantPermissions ["midi"; "geolocation"] None
       {[ "*" := ["geolocation"] ]}).1 !! "*" = Some list
    ∧ NoDup list
    ∧ ["geolocation"] `prefix_of` list.
Proof.
  destruct (grants_accumulate plain_origin chromium_doGrantPermissions
              ["midi"; "geolocation"] None {[ "*" := ["geolocation"] ]})
    as (list & Hlist & Hnodup & Hprefix & _).
  - intros origin list Hlist.
    destruct (decide (origin = "*")) as [->|Hne].
    + rewrite lookup_singleton_eq in Hlist. injection Hlist as <-.
      apply NoDup_singleton.
    + by rewrite lookup_singleton_ne in Hlist.
  - exists list. split; [exact Hlist|]. split; [exact Hnodup|exact Hprefix].
Defined.

(** The origin [grantPermissions] files the permissions under. *)
Definition resolve_origin (url_origin : string → string + string) (origin : option string)
  : string + string :=
  match Lifecycle.truthy origin with
  | Some text => url_origin text
  | None => inr "*"
  end.

Lemma to_protocol_unknown table permissions :
  ¬ Forall (λ p, is_Some (map_get p table)) permissions →
  ∃ p, to_protocol table permissions = inl ("Unknown permission: " +:+ p)
       ∧ p ∈ permissions ∧ map_get p table = None.
Proof.
  induction permissions as [|p permissions IH]; simpl; intros Hnot.
  - destruct Hnot. constructor.
  - destruct (map_get p table) as [pp|] eqn:Hp.
    + destruct IH as (q & -> & Hq & Hnone).
      { intros Hall. apply Hnot. constructor; [by eexists|done]. }
      exists q. split; [done|]. split; [|done]. apply elem_of_cons. by right.
    + exists p. split; [done|]. split; [|done]. apply elem_of_cons. by left.
Qed.

Lemma grant_recorded url_origin doGrant permissions origin state o :
  sets state →
  resolve_origin url_origin origin = inr o →
  grantPermissions url_origin doGrant permissions origin state
  = (<[o := foldl set_add (default [] (state !! o)) permissions]> state,
     doGrant o (foldl set_add (default [] (state !! o)) permissions)).
Proof.
  intros Hsets Ho. unfold grantPermissions. unfold resolve_origin in Ho. rewrite Ho.
  rewrite set_from_NoDup; [done|].
  destruct (state !! o) eqn:Hl; simpl; [by eapply Hsets|constructor].
Qed.

(** In Chromium a grant that names a permission the table does not know
    fails with "Unknown permission", but not before the permission was
    recorded for the origin.  So every later grant for that origin fails
    as well, whatever it asks for, until the permissions are cleared;
    after [clearPermissions] a grant of known permissions goes through
    and sends one protocol name for each distinct permission. *)
Theorem unknown_permission_sticks
    (url_origin : string → string + string)
    (permissions later : list string) (origin : option string)
    (_permissions : gmap string (list string)) (o unknown : string) :
  sets _permissions →
  resolve_origin url_origin origin = inr o →
  unknown ∈ permissions →
  map_get unknown chromium_permissions = None →
  let failed :=
    grantPermissions url_origin chromium_doGrantPermissions permissions origin
      _permissions in
  (∃ p, failed.2 = inl ("Unknown permission: " +:+ p)
        ∧ map_get p chromium_permissions = None)
  ∧ (∃ list, failed.1 !! o = Some list ∧ unknown ∈ list)
  ∧ (∃ p, (grantPermissions url_origin chromium_doGrantPermissions later origin
             failed.1).2 = inl ("Unknown permission: " +:+ p))
  ∧ (Forall (λ p, is_Some (map_get p chromium_permissions)) later →
     ∃ filtered,
       (grantPermissions url_origin chromium_doGrantPermissions later origin
          (clearPermissions "Browser.resetPermissions" failed.1).1).2
       = inr [GrantPermissions "Browser.grantPermissions" o filtered]
       ∧ to_protocol chromium_permissions (set_from later) = inr filtered).
Proof.
  intros Hsets Ho Hin Hunknown failed.
  assert (Hold : NoDup (default [] (_permissions !! o))).
  { destruct (_permissions !! o) eqn:Hl; simpl; [by eapply Hsets|constructor]. }
  destruct (foldl_set_add_spec permissions _ Hold) as (Hnodup & Hmem & _).
  assert (Hfailed : failed
            = (<[o := foldl set_add (default [] (_permissions !! o)) permissions]>
                 _permissions,
               chromium_doGrantPermissions o
                 (foldl set_add (default [] (_permissions !! o)) permissions)))
    by (by apply grant_recorded).
  assert (Hsets' : sets failed.1).
  { rewrite Hfailed. simpl. intros o' l'. destruct (decide (o = o')) as [<-|Hne].
    - rewrite lookup_insert_eq. by intros [= <-].
    - rewrite lookup_insert_ne by done. apply Hsets. }
  assert (Hrejected : ∀ list, unknown ∈ list →
            ∃ p, chromium_doGrantPermissions o list
                 = inl ("Unknown permission: " +:+ p)
                 ∧ map_get p chromium_permissions = None).
  { intros list Hlist.
    destruct (to_protocol_unknown chromium_permissions list) as (p & Hp & _ & Hnone).
    - intros Hall. rewrite Forall_forall in Hall.
      destruct (Hall unknown Hlist) as [? ?]. congruence.
    - exists p. unfold chromium_doGrantPermissions, _doGrantPermissions.
      by rewrite Hp. }
  split; [|split; [|split]].
  - rewrite Hfailed. simpl. apply Hrejected. apply Hmem. by right.
  - rewrite Hfailed. simpl. eexists. split; [apply lookup_insert_eq|].
    apply Hmem. by right.
  - rewrite (grant_recorded _ _ _ _ _ o Hsets' Ho). simpl.
    rewrite Hfailed. simpl. rewrite lookup_insert_eq. simpl.
    destruct (foldl_set_add_spec later _ Hnodup) as (_ & Hmem' & _).
    destruct (Hrejected (foldl set_add
                (foldl set_add (default [] (_permissions !! o)) permissions) later))
      as (p & Hp & _).
    { apply Hmem'. left. apply Hmem. by right. }
    by exists p.
  - intros Hknown. unfold clearPermissions. simpl.
    rewrite (grant_recorded _ _ _ _ _ o) by (done || by intros ? ? ?).
    simpl. rewrite lookup_empty. simpl.
    destruct (proj2 (to_protocol_known chromium_permissions (foldl set_add [] later)))
      as [filtered Hfiltered].
    { apply Forall_forall. intros p Hp.
      destruct (foldl_set_add_spec later [] (NoDup_nil_2)) as (_ & Hmem' & _).
      apply Hmem' in Hp as [Hp|Hp]; [by apply elem_of_nil in Hp|].
      rewrite Forall_forall in Hknown. by apply Hknown. }
    exists filtered. unfold chromium_doGrantPermissions, _doGrantPermissions, set_from.
    by rewrite Hfiltered.
Qed.

Lemma unknown_permission_sticks_witness :
  ∃ p, (grantPermissions plain_origin chromium_doGrantPermissions ["geolocation"] None
          (grantPermissions plain_origin chromium_doGrantPermissions ["foo"] None ∅).1).2
       = inl ("Unknown permission: " +:+ p).
Proof.
  destruct (unknown_permission_sticks plain_origin ["foo"] ["geolocation"] None ∅ "*" "foo")
    as (_ & _ & Hsticky & _).
  - intros origin list Hlist. by rewrite lookup_empty in Hlist.
  - reflexivity.
  - apply elem_of_cons. by left.
  - reflexivity.
  - exact Hsticky.
Defined.

(** WebKit grants only [geolocation]: a grant goes through exactly when
    every permission recorded for the origin, old or new, is
    [geolocation], and then the recorded list is what is sent. *)
Theorem webkit_grants_geolocation_only
    (url_origin : string → string + string)
    (permissions : list string) (origin : option string)
    (_permissions : gmap string (list string)) (o : string) :
  sets _permissions →
  resolve_origin url_origin origin = inr o →
  let granted :=
    grantPermissions url_origin webkit_doGrantPermissions permissions origin
      _permissions in
  ((∃ calls, granted.2 = inr calls)
   ↔ Forall (λ p, p = "geolocation") (default [] (_permissions !! o) ++ permissions))
  ∧ (∀ calls, granted.2 = inr calls →
     ∃ list, granted.1 !! o = Some list
             ∧ calls = [GrantPermissions "Playwright.grantPermissions" o list]).
Proof.
  intros Hsets Ho granted.
  assert (Hold : NoDup (default [] (_permissions !! o))).
  { destruct (_permissions !! o) eqn:Hl; simpl; [by eapply Hsets|constructor]. }
  destruct (foldl_set_add_spec permissions _ Hold) as (_ & Hmem & _).
  assert (Hgranted : granted
            = (<[o := foldl set_add (default [] (_permissions !! o)) permissions]>
                 _permissions,
               webkit_doGrantPermissions o
                 (foldl set_add (default [] (_permissions !! o)) permissions)))
    by (by apply grant_recorded).
  assert (Hknown : ∀ p, is_Some (map_get p webkit_permissions) ↔ p = "geolocation").
  { intros p. simpl. destruct (decide ("geolocation" = p)) as [<-|Hne].
    - split; [done|by eexists].
    - split; [intros [? ?]; discriminate|congruence]. }
  assert (Hidentity : ∀ list filtered,
            to_protocol webkit_permissions list = inr filtered → filtered = list).
  { induction list as [|p list IH]; simpl; intros filtered Hrun.
    - by injection Hrun as <-.
    - destruct (decide ("geolocation" = p)) as [<-|Hne]; [|discriminate].
      destruct (to_protocol webkit_permissions list) as [|rest]; [discriminate|].
      injection Hrun as <-. f_equal. by apply IH. }
  rewrite Hgranted. simpl. split.
  - unfold webkit_doGrantPermissions, _doGrantPermissions.
    set (list := foldl set_add _ permissions) in *.
    rewrite Forall_forall. split.
    + intros [calls Hcalls] p Hp.
      destruct (to_protocol webkit_permissions list) as [|filtered] eqn:Hrun;
        [discriminate|].
      assert (Hall : Forall (λ p, is_Some (map_get p webkit_permissions)) list).
      { apply to_protocol_known. by eexists. }
      rewrite Forall_forall in Hall. apply Hknown, Hall, Hmem.
      by apply elem_of_app in Hp.
    + intros Hall.
      destruct (proj2 (to_protocol_known webkit_permissions list)) as [filtered ->].
      * apply Forall_forall. intros p Hp. apply Hknown, Hall.
        apply elem_of_app. by apply Hmem.
      * by eexists.
  - intros calls Hcalls. eexists. split; [apply lookup_insert_eq|].
    unfold webkit_doGrantPermissions, _doGrantPermissions in Hcalls.
    destruct (to_protocol webkit_permissions _) as [|filtered] eqn:Hrun; [discriminate|].
    injection Hcalls as <-. by rewrite (Hidentity _ _ Hrun).
Qed.

Lemma webkit_grants_geolocation_only_witness :
  ¬ (∃ calls,
       (grantPermissions plain_origin webkit_doGrantPermissions ["midi"] None ∅).2
       = inr calls).
Proof.
  destruct (webkit_grants_geolocation_only plain_origin ["midi"] None ∅ "*")
    as [Hiff _].
  - intros origin list Hlist. by rewrite lookup_empty in Hlist.
  - reflexivity.
  - intros Hok. apply Hiff in Hok. apply Forall_cons in Hok as [Hmidi _].
    discriminate.
Defined.

End Permissions.

(** ** Creating and closing browser contexts (crBrowser.ts, wkBrowser.ts) *)

Module Contexts.
Import Lifecycle.

Inductive Call :=
| BrowserClose                                 (* await this._browser.close() *)
| DisposeContext (method : string) (id : string)
                                               (* send('Target.disposeBrowserContext' | 'Playwright.deleteContext', { browserContextId }) *)
| DidCloseInternal.                            (* this._didCloseInternal() *)

(** The registry part of [CRBrowser.newContext]: the context made for the
    id the browser answered with is filed under that id. *)
Definition cr_newContext (browserContextId : string) (browser : Chromium.CRBrowser)
  : Chromium.CRBrowser :=
  {| Chromium._defaultContext := Chromium._defaultContext browser;
     Chromium._contexts :=
       <[browserContextId := {| _browserContextId := Some browserContextId |}]>
         (Chromium._contexts browser);
     Chromium._targets := Chromium._targets browser;
     Chromium._popupOpeners := Chromium._popupOpeners browser |}.

(** [CRBrowserContext.close]; [closed] is the context's [_closed]. *)
Definition cr_close (context : BrowserContext) (closed : bool) (browser : Chromium.CRBrowser)
  : Chromium.CRBrowser * list Call :=
  if closed then (browser, [])
  else
    match truthy (_browserContextId context) with
    | None => (browser, [BrowserClose])
    | Some id =>
        ({| Chromium._defaultContext := Chromium._defaultContext browser;
            Chromium._contexts := delete id (Chromium._contexts browser);
            Chromium._targets := Chromium._targets browser;
            Chromium._popupOpeners := Chromium._popupOpeners browser |},
         [DisposeContext "Target.disposeBrowserContext" id; DidCloseInternal])
    end.

(** The registry part of [WKBrowser.newContext]. *)
Definition wk_newContext (browserContextId : string) (browser : WebKit.WKBrowser)
  : WebKit.WKBrowser :=
  {| WebKit._attachToDefaultContext := WebKit._attachToDefaultContext browser;
     WebKit._defaultContext := WebKit._defaultContext browser;
     WebKit._contexts :=
       <[browserContextId := {| _browserContextId := Some browserContextId |}]>
         (WebKit._contexts browser);
     WebKit._wkPages := WebKit._wkPages browser;
     WebKit._popupOpeners := WebKit._popupOpeners browser |}.

(** [WKBrowserContext.close]. *)
Definition wk_close (context : BrowserContext) (closed : bool) (browser : WebKit.WKBrowser)
  : WebKit.WKBrowser * list Call :=
  if closed then (browser, [])
  else
    match truthy (_browserContextId context) with
    | None => (browser, [BrowserClose])
    | Some id =>
        ({| WebKit._attachToDefaultContext := WebKit._attachToDefaultContext browser;
            WebKit._defaultContext := WebKit._defaultContext browser;
            WebKit._contexts := delete id (WebKit._contexts browser);
            WebKit._wkPages := WebKit._wkPages browser;
            WebKit._popupOpeners := WebKit._popupOpeners browser |},
         [DisposeContext "Playwright.deleteContext" id; DidCloseInternal])
    end.

Lemma cr_close_named id browser :
  id ≠ EmptyString →
  cr_close {| _browserContextId := Some id |} false browser
  = ({| Chromium._defaultContext := Chromium._defaultContext browser;
        Chromium._contexts := delete id (Chromium._contexts browser);
        Chromium._targets := Chromium._targets browser;
        Chromium._popupOpeners := Chromium._popupOpeners browser |},
     [DisposeContext "Target.disposeBrowserContext" id; DidCloseInternal]).
Proof. intros Hne. unfold cr_close. simpl. by destruct id. Qed.

Lemma wk_close_named id browser :
  id ≠ EmptyString →
  wk_close {| _browserContextId := Some id |} false browser
  = ({| WebKit._attachToDefaultContext := WebKit._attachToDefaultContext browser;
        WebKit._defaultContext := WebKit._defaultContext browser;
        WebKit._contexts := delete id (WebKit._contexts browser);
        WebKit._wkPages := WebKit._wkPages browser;
        WebKit._popupOpeners := WebKit._popupOpeners browser |},
     [DisposeContext "Playwright.deleteContext" id; DidCloseInternal]).
Proof. intros Hne. unfold wk_close. simpl. by destruct id. Qed.

Lemma resolve_context_named info browser id :
  id ≠ EmptyString →
  Chromium.browserContextId info = Some id →
  Chromium.resolve_context info browser
  = default (Chromium._defaultContext browser) (Chromium._contexts browser !! id).
Proof.
  intros Hne Hid. unfold Chromium.resolve_context.
  rewrite Hid, Registry.truthy_nonempty by done. by destruct (_ !! id).
Qed.

Lemma reported_context_named info browser id :
  id ≠ EmptyString →
  WebKit.browserContextId info = Some id →
  WebKit.reported_context info browser = WebKit._contexts browser !! id.
Proof.
  intros Hne Hid. unfold WebKit.reported_context.
  by rewrite Hid, Registry.truthy_nonempty.
Qed.

(** In Chromium, once [newContext] has filed a context under a non-empty
    id, a new target that reports this id belongs to that context; once
    the context is closed, a new target that still reports the id belongs
    to the default context.  Creating and then closing a context whose id
    was not in use leaves the registry of contexts as it was.  Closing a
    context without an id (the default one) asks the browser to close and
    leaves the registry alone, and closing a closed context does nothing. *)
Theorem chromium_context_lifetime
    (isPageType : string → bool) (id : string) (info : Chromium.TargetInfo)
    (session : option string) (browser : Chromium.CRBrowser) :
  id ≠ EmptyString →
  Chromium.browserContextId info = Some id →
  Chromium._targets browser !! Chromium.targetId info = None →
  let context := {| _browserContextId := Some id |} in
  let opened := cr_newContext id browser in
  (∃ target,
     (Chromium._createTarget isPageType info session opened).2 = inr (context, target)
     ∧ Chromium._context target = context)
  ∧ (∃ target,
       (Chromium._createTarget isPageType info session (cr_close context false opened).1).2
       = inr (Chromium._defaultContext browser, target))
  ∧ (Chromium._contexts browser !! id = None →
     Chromium._contexts (cr_close context false opened).1 = Chromium._contexts browser)
  ∧ cr_close {| _browserContextId := None |} false opened = (opened, [BrowserClose])
  ∧ cr_close context true opened = (opened, []).
Proof.
  intros Hne Hid Hfresh context opened.
  split; [|split; [|split; [|done]]].
  - rewrite Registry.createTarget_fresh by done. cbv zeta.
    rewrite (resolve_context_named info opened id) by done.
    unfold opened. simpl. rewrite lookup_insert_eq. simpl.
    eexists (Chromium.Build_CRTarget _ _ _ _). split; reflexivity.
  - unfold context. rewrite cr_close_named by done. simpl.
    rewrite Registry.createTarget_fresh by done. cbv zeta.
    rewrite (resolve_context_named info _ id) by done. simpl.
    rewrite lookup_delete_eq. simpl. by eexists (Chromium.Build_CRTarget _ _ _ _).
  - intros Hunused. unfold context. rewrite cr_close_named by done. simpl.
    rewrite delete_insert_eq. by apply delete_id.
Qed.

Definition context_target : Chromium.TargetInfo :=
  {| Chromium.targetId := "T5"; Chromium.type := "page";
     Chromium.openerId := None; Chromium.browserContextId := Some "C1" |}.

Lemma chromium_context_lifetime_witness :
  (∃ target,
     (Chromium._createTarget Chromium.page_or_background context_target (Some "S5")
        (cr_newContext "C1" Chromium.initial_browser)).2
     = inr ({| _browserContextId := Some "C1" |}, target)
     ∧ Chromium._context target = {| _browserContextId := Some "C1" |})
  ∧ Chromium._contexts
      (cr_close {| _browserContextId := Some "C1" |} false
         (cr_newContext "C1" Chromium.initial_browser)).1
    = ∅.
Proof.
  destruct (chromium_context_lifetime Chromium.page_or_background "C1" context_target
              (Some "S5") Chromium.initial_browser) as (Hopen & _ & Hround & _).
  - discriminate.
  - reflexivity.
  - reflexivity.
  - split; [exact Hopen|]. apply Hround. reflexivity.
Defined.

(** In WebKit, a page proxy that reports the id of a context made by
    [newContext] is created in that context whether or not the browser
    attaches to the default context.  Once the context is closed, a page
    proxy that still reports the id goes to the default context when the
    browser attaches to it, and is ignored otherwise. *)
Theorem webkit_context_lifetime
    (id : string) (info : WebKit.PageProxyInfo) (browser : WebKit.WKBrowser) :
  id ≠ EmptyString →
  WebKit.browserContextId info = Some id →
  let context := {| _browserContextId := Some id |} in
  let opened := wk_newContext id browser in
  let closed := (wk_close context false opened).1 in
  (∃ wkPage,
     (WebKit._onPageProxyCreated info opened).2 = Some (context, wkPage)
     ∧ WebKit._wkPages (WebKit._onPageProxyCreated info opened).1
         !! WebKit.pageProxyId info = Some wkPage)
  ∧ (if WebKit._attachToDefaultContext browser
     then ∃ wkPage,
            (WebKit._onPageProxyCreated info closed).2
            = Some (WebKit._defaultContext browser, wkPage)
     else WebKit._onPageProxyCreated info closed = (closed, None))
  ∧ (WebKit._contexts browser !! id = None → closed = browser).
Proof.
  intros Hne Hid context opened closed.
  assert (Hclosed : closed
            = {| WebKit._attachToDefaultContext := WebKit._attachToDefaultContext browser;
                 WebKit._defaultContext := WebKit._defaultContext browser;
                 WebKit._contexts := delete id (WebKit._contexts browser);
                 WebKit._wkPages := WebKit._wkPages browser;
                 WebKit._popupOpeners := WebKit._popupOpeners browser |}).
  { unfold closed, context. rewrite wk_close_named by done. simpl.
    by rewrite delete_insert_eq. }
  split; [|split].
  - assert (Hfound : WebKit.reported_context info opened = Some context).
    { rewrite (reported_context_named info opened id) by done.
      apply lookup_insert_eq. }
    destruct (Registry.proxyCreated_attached info opened) as (wkPage & Hrun & _).
    { left. rewrite Hfound. by eexists. }
    rewrite Hfound in Hrun. exists wkPage. rewrite Hrun. simpl.
    split; [done|]. apply lookup_insert_eq.
  - assert (Hnone : WebKit.reported_context info closed = None).
    { rewrite (reported_context_named info closed id) by done.
      rewrite Hclosed. simpl. apply lookup_delete_eq. }
    destruct (WebKit._attachToDefaultContext browser) eqn:Hattach.
    + destruct (Registry.proxyCreated_attached info closed) as (wkPage & Hrun & _).
      { right. by rewrite Hclosed. }
      rewrite Hnone in Hrun. exists wkPage. rewrite Hrun. simpl. by rewrite Hclosed.
    + assert (Hflag : WebKit._attachToDefaultContext closed = false)
        by (by rewrite Hclosed).
      unfold WebKit._onPageProxyCreated. by rewrite Hnone, Hflag.
  - intros Hunused. rewrite Hclosed. rewrite delete_id by done. by destruct browser.
Qed.

Definition context_proxy : WebKit.PageProxyInfo :=
  {| WebKit.pageProxyId := "P5"; WebKit.browserContextId := Some "C1";
     WebKit.openerId := None |}.

Lemma webkit_context_lifetime_witness :
  (∃ wkPage,
     (WebKit._onPageProxyCreated context_proxy
        (wk_newContext "C1" (WebKit.initial_browser false))).2
     = Some ({| _browserContextId := Some "C1" |}, wkPage)
     ∧ WebKit._wkPages
         (WebKit._onPageProxyCreated context_proxy
            (wk_newContext "C1" (WebKit.initial_browser false))).1 !! "P5"
       = Some wkPage).
Proof.
  destruct (webkit_context_lifetime "C1" context_proxy (WebKit.initial_browser false))
    as (Hopen & _).
  - discriminate.
  - reflexivity.
  - exact Hopen.
Defined.

End Contexts.

(** ** Runs of the Chromium and WebKit registries *)

Module RegistryRuns.
Import Lifecycle.

Section WithPageType.

Variable isPageType : string → bool.

Lemma consume_opener_length opener queue :
  length (consume_opener opener queue).1
  + (if (consume_opener opener queue).2 then 1 else 0)
  = length queue.
Proof.
  destruct (decide (opener ∈ queue)) as [Hin|Hnot].
  - destruct (consume_opener_present _ _ Hin) as (before & after & -> & _ & ->).
    simpl. rewrite !length_app. simpl. lia.
  - rewrite consume_opener_absent by done. simpl. lia.
Qed.

Lemma resolve_opener_length info browser :
  length (Chromium.resolve_opener isPageType info browser).1
  + (if (Chromium.resolve_opener isPageType info browser).2 then 1 else 0)
  = length (Chromium._popupOpeners browser).
Proof.
  unfold Chromium.resolve_opener.
  destruct (isPageType (Chromium.type info)); [|simpl; lia].
  destruct (truthy (Chromium.openerId info)); [|simpl; lia].
  apply consume_opener_length.
Qed.

(** A created target can be destroyed and created again.  After a
    creation under a new id and the destruction of that id the registry
    of targets is what it was before, the destruction having closed the
    target; and a further creation under the same id passes the
    assertion. *)
Theorem created_then_destroyed
    (info : Chromium.TargetInfo) (session session' : option string)
    (browser : Chromium.CRBrowser) :
  Chromium._targets browser !! Chromium.targetId info = None →
  let created := (Chromium._createTarget isPageType info session browser).1 in
  let destroyed := Chromium._targetDestroyed (Chromium.targetId info) created in
  Chromium._targets destroyed.1 = Chromium._targets browser
  ∧ destroyed.2 = [Deleted (Chromium.targetId info); DidClose (Chromium.targetId info)]
  ∧ ∃ context target,
      (Chromium._createTarget isPageType info session' destroyed.1).2
      = inr (context, target).
Proof.
  intros Hfresh created destroyed.
  assert (Hcreated : Chromium._targets created !! Chromium.targetId info
                     = Some {| Chromium._targetInfo := info;
                               Chromium._context := Chromium.resolve_context info browser;
                               Chromium._session := session;
                               Chromium.hasInitialAboutBlank :=
                                 (Chromium.resolve_opener isPageType info browser).2 |}
                     ∧ delete (Chromium.targetId info) (Chromium._targets created)
                       = Chromium._targets browser).
  { unfold created. rewrite Registry.createTarget_fresh by done. simpl.
    split; [apply lookup_insert_eq|]. rewrite delete_insert_eq. by apply delete_id. }
  destruct Hcreated as [Hlookup Hdelete].
  assert (Hdestroyed : Chromium._targets destroyed.1 = Chromium._targets browser
                       ∧ destroyed.2 = [Deleted (Chromium.targetId info);
                                        DidClose (Chromium.targetId info)]).
  { unfold destroyed, Chromium._targetDestroyed. rewrite Hlookup. simpl. by rewrite Hdelete. }
  destruct Hdestroyed as [Htargets Hops].
  split; [done|]. split; [done|].
  rewrite Registry.createTarget_fresh by (by rewrite Htargets).
  by eexists _, _.
Qed.

(** A creation that fails the duplicate-id assertion has already taken
    the opener out of the queue: for a page-like target whose opener is
    queued, the creation is refused and registers nothing, yet the queue
    comes out without the first entry for that opener. *)
Theorem refused_creation_consumes_opener
    (info : Chromium.TargetInfo) (session : option string)
    (browser : Chromium.CRBrowser) (opener : string) :
  is_Some (Chromium._targets browser !! Chromium.targetId info) →
  isPageType (Chromium.type info) = true →
  Chromium.openerId info = Some opener →
  opener ≠ EmptyString →
  opener ∈ Chromium._popupOpeners browser →
  let refused := Chromium._createTarget isPageType info session browser in
  refused.2 = inl "Target should not exist before targetCreated"
  ∧ Chromium._targets refused.1 = Chromium._targets browser
  ∧ ∃ before after,
      Chromium._popupOpeners browser = before ++ opener :: after
      ∧ (opener ∉ before)
      ∧ Chromium._popupOpeners refused.1 = before ++ after.
Proof.
  intros Hdup Hpage Hopener Hne Hin refused.
  destruct (Registry.createTarget_duplicate isPageType info session browser Hdup)
    as [Herror Htargets].
  split; [done|]. split; [done|].
  destruct (consume_opener_present _ _ Hin) as (before & after & Hqueue & Hbefore & Hrun).
  exists before, after. split; [done|]. split; [done|].
  unfold refused, Chromium._createTarget.
  rewrite (Registry.resolve_opener_page isPageType info browser opener) by done.
  rewrite Hrun. by rewrite decide_True.
Qed.

(** The events the Chromium registry reacts to. *)
Inductive Event :=
| WindowOpen (opener : string) (payload : Chromium.windowOpenPayload)
| Created (info : Chromium.TargetInfo) (session : option string)
| Destroyed (id : string).

(** One event; the number counts the targets created so far with the
    initial-about-blank flag set. *)
Definition step (state : Chromium.CRBrowser * nat) (event : Event)
  : Chromium.CRBrowser * nat :=
  match event with
  | WindowOpen opener payload => (Chromium._onWindowOpen opener payload state.1, state.2)
  | Created info session =>
      let created := Chromium._createTarget isPageType info session state.1 in
      (created.1,
       match created.2 with
       | inr (_, target) => if Chromium.hasInitialAboutBlank target then S state.2 else state.2
       | inl _ => state.2
       end)
  | Destroyed id => ((Chromium._targetDestroyed id state.1).1, state.2)
  end.

(** The window-open signals of a run that [_onWindowOpen] records. *)
Definition is_recorded (event : Event) : bool :=
  match event with
  | WindowOpen _ payload => negb (Registry.noopener_blank payload)
  | _ => false
  end.

Definition recorded (events : list Event) : nat :=
  length (filter (λ event, is_recorded event = true) events).

Lemma step_bound state event :
  ((step state event).2 + length (Chromium._popupOpeners (step state event).1)
   ≤ state.2 + length (Chromium._popupOpeners state.1) + recorded [event])%nat.
Proof.
  destruct state as [browser flagged]. destruct event as [opener payload|info session|id];
    simpl.
  - unfold recorded, Chromium._onWindowOpen. rewrite filter_cons, filter_nil.
    unfold Registry.noopener_blank.
    destruct (bool_decide _ && String.prefix _ _) eqn:Hguard; simpl;
      unfold Registry.noopener_blank; rewrite Hguard; simpl.
    + lia.
    + rewrite length_app. simpl. lia.
  - pose proof (resolve_opener_length info browser) as Hlength.
    unfold Chromium._createTarget.
    destruct (Chromium.resolve_opener isPageType info browser) as [queue flag].
    simpl in Hlength. unfold recorded. simpl.
    destruct (decide (is_Some (Chromium._targets browser !! Chromium.targetId info)));
      simpl; destruct flag; lia.
  - unfold Chromium._targetDestroyed, recorded. simpl.
    destruct (Chromium._targets browser !! id); simpl; lia.
Qed.

(** In every run of window-open, creation and destruction events the
    targets created with the initial-about-blank flag, together with the
    openers still queued, number no more than the openers queued at the
    start and the window-open signals recorded since: no signal marks
    two targets. *)
Theorem flags_bounded_by_signals (events : list Event) (browser : Chromium.CRBrowser) :
  ((foldl step (browser, 0) events).2
   + length (Chromium._popupOpeners (foldl step (browser, 0) events).1)
   ≤ length (Chromium._popupOpeners browser) + recorded events)%nat.
Proof.
  assert (Hgeneral : ∀ state,
            ((foldl step state events).2
             + length (Chromium._popupOpeners (foldl step state events).1)
             ≤ state.2 + length (Chromium._popupOpeners state.1) + recorded events)%nat).
  { induction events as [|event events IH]; intros state; simpl.
    - unfold recorded. simpl. lia.
    - specialize (IH (step state event)). pose proof (step_bound state event) as Hstep.
      assert (Hsplit : recorded (event :: events) = recorded [event] + recorded events).
      { unfold recorded. rewrite (filter_app _ [event] events), length_app. done. }
      lia. }
  apply (Hgeneral (browser, 0)).
Qed.

End WithPageType.

Lemma created_then_destroyed_witness :
  Chromium._targets
    (Chromium._targetDestroyed "T2"
       (Chromium._createTarget Chromium.page_or_background (Registry.popup_of_T1 "T2")
          (Some "S2") Registry.browser_with_T1).1).1
  = Chromium._targets Registry.browser_with_T1.
Proof.
  apply (created_then_destroyed Chromium.page_or_background (Registry.popup_of_T1 "T2")
           (Some "S2") None Registry.browser_with_T1).
  vm_compute. reflexivity.
Defined.

Definition browser_awaiting_popup : Chromium.CRBrowser :=
  Chromium._onWindowOpen "T1" Registry.window_payload Registry.browser_with_T1.

Lemma refused_creation_consumes_opener_witness :
  (Chromium._createTarget Chromium.page_or_background (Registry.popup_of_T1 "T1")
     (Some "S2") browser_awaiting_popup).2
  = inl "Target should not exist before targetCreated"
  ∧ ∃ before after,
      Chromium._popupOpeners browser_awaiting_popup = before ++ "T1" :: after
      ∧ Chromium._popupOpeners
          (Chromium._createTarget Chromium.page_or_background (Registry.popup_of_T1 "T1")
             (Some "S2") browser_awaiting_popup).1 = before ++ after.
Proof.
  destruct (refused_creation_consumes_opener Chromium.page_or_background
              (Registry.popup_of_T1 "T1") (Some "S2") browser_awaiting_popup "T1")
    as (Herror & _ & before & after & Hqueue & _ & Hleft).
  - vm_compute. eexists. reflexivity.
  - reflexivity.
  - reflexivity.
  - discriminate.
  - vm_compute. apply elem_of_cons. by left.
  - split; [exact Herror|]. by exists before, after.
Defined.

End RegistryRuns.

(** ** Setting the geolocation of a context (crBrowser.ts, browserContext.ts) *)

Module ContextSettings.
Import Options.

Inductive Call :=
| SetGeolocationOverride (geolocation : option Geolocation).
    (* page client .send('Emulation.setGeolocationOverride', geolocation || {}) *)

Section WithHeaders.

Context {Headers : Type}.
Variable verifyHeaders : Headers → string + Headers.

(** [CRBrowserContext.setGeolocation]; [geolocation] is [None] for [null]
    and [pages] is the number of [this.pages()].  A [throw] happens
    before the option is written. *)
Definition setGeolocation (geolocation : option Geolocation) (pages : nat)
    (options : BrowserContextOptions Headers)
  : Error + BrowserContextOptions Headers * list Call :=
  match
    match geolocation with
    | Some g =>
        match verifyGeolocation g with
        | inl error => inl error
        | inr g' => inr (Some g')
        end
    | None => inr None
    end
  with
  | inl error => inl error
  | inr verified =>
      inr (assign options (viewport options) verified (extraHTTPHeaders options),
           replicate pages (SetGeolocationOverride verified))
  end.

Lemma accuracy_or_zero_twice a :
  accuracy_or_zero (Some (accuracy_or_zero a)) = accuracy_or_zero a.
Proof.
  destruct a as [a|]; simpl; [|done].
  destruct (falsy a) eqn:Hfalsy; simpl; [done|]. by rewrite Hfalsy.
Qed.

Lemma verifyGeolocation_again g g' :
  verifyGeolocation g = inr g' → verifyGeolocation g' = inr g'.
Proof.
  intros Hverified.
  apply verifyGeolocation_inr in Hverified as (-> & Hlon & Hlat & Hacc).
  rewrite verifyGeolocation_accepts; cbn [longitude latitude accuracy];
    rewrite ?accuracy_or_zero_twice; done.
Qed.

(** A geolocation that passed [verifyGeolocation] passes it again and
    comes back unchanged.  So the [setGeolocation] that [_initialize]
    runs on the options [validateBrowserContextOptions] returned cannot
    fail and leaves the options as they are, sending the geolocation to
    every page; a geolocation that [verifyGeolocation] rejects is
    rejected by [setGeolocation] too, and [null] clears the option. *)
Theorem geolocation_verified_once
    (options result : BrowserContextOptions Headers) (heap heap' : gmap nat Size)
    (g : Geolocation) (pages : nat) :
  (∀ l, viewport options = ViewportAt l → is_Some (heap !! l)) →
  validateBrowserContextOptions verifyHeaders options heap = inr (result, heap') →
  geolocation result = Some g →
  verifyGeolocation g = inr g
  ∧ setGeolocation (Some g) pages result
    = inr (result, replicate pages (SetGeolocationOverride (Some g)))
  ∧ (∀ other error,
       verifyGeolocation other = inl error →
       setGeolocation (Some other) pages result = inl error)
  ∧ (∃ cleared,
       setGeolocation None pages result
       = inr (cleared, replicate pages (SetGeolocationOverride None))
       ∧ geolocation cleared = None
       ∧ same_plain_options result cleared).
Proof.
  intros Hwf Hrun Hg.
  destruct (ValidatedOptions.validate_inr verifyHeaders options result heap heap' Hwf Hrun)
    as (_ & Hgeo).
  assert (Hverified : verifyGeolocation g = inr g).
  { destruct (geolocation options) as [g0|]; [|congruence].
    destruct Hgeo as (Hresult & Hagain).
    rewrite Hg in Hresult. injection Hresult as ->.
    by apply (verifyGeolocation_again g0). }
  split; [done|]. split; [|split].
  - assert (Hsame : assign result (viewport result) (geolocation result)
                      (extraHTTPHeaders result) = result) by (by destruct result).
    rewrite Hg in Hsame. unfold setGeolocation. by rewrite Hverified, Hsame.
  - intros other error Hother. unfold setGeolocation. by rewrite Hother.
  - eexists. split; [reflexivity|]. split; [done|]. apply assign_plain.
Qed.

End WithHeaders.

Lemma geolocation_verified_once_witness :
  ∃ result heap',
    validateBrowserContextOptions strings_only
      (plain_options ViewportNull (Some sample_geolocation) None) ∅
    = inr (result, heap')
    ∧ setGeolocation
        (Some {| longitude := Finite (21 # 2); latitude := num 48;
                 accuracy := Some (num 0) |}) 2 result
      = inr (result,
             replicate 2
               (SetGeolocationOverride
                  (Some {| longitude := Finite (21 # 2); latitude := num 48;
                           accuracy := Some (num 0) |}))).
Proof.
  destruct (validateBrowserContextOptions strings_only
              (plain_options ViewportNull (Some sample_geolocation) None) ∅)
    as [error|[result heap']] eqn:Hrun.
  { vm_compute in Hrun. discriminate. }
  exists result, heap'. split; [reflexivity|].
  apply (geolocation_verified_once strings_only
           (plain_options ViewportNull (Some sample_geolocation) None) result ∅ heap').
  - intros l Hl. discriminate.
  - exact Hrun.
  - vm_compute in Hrun. injection Hrun as <- _. reflexivity.
Defined.

End ContextSettings.

(** ** Tracing (crBrowser.ts) *)

Module Tracing.

(** The tracing fields of [CRBrowser]; a session is named by a string. *)
Record CRBrowser := {
  _tracingRecording : bool;
  _tracingPath : option string;
  _tracingClient : option string
}.


(** The options of [startTracing]; a field left out is [None]. *)
Record Options := {
  path : option string;
  screenshots : option bool;
  categories : option (list string)
}.


Inductive Call :=
| TracingStart (client : string) (categories : string)
    (* client.send('Tracing.start', { transferMode: 'ReturnAsStream', categories }) *)
| TracingEnd (client : string).
    (* client.send('Tracing.end') *)



Inductive Request :=
| Start (page : option string) (options : Options)
| Stop.




End Tracing.

(** ** The command line of Firefox (server/firefox.ts) *)

From Stdlib Require Import DecimalString.

Module Firefox.

(** [BrowserArgOptions], the fields [_defaultArgs] reads; a field left
    out is [None]. *)
Record BrowserArgOptions := {
  devtools : option bool;
  headless : option bool;
  args : option (list string)
}.

Inductive LaunchType := Local | Server | Persistent.

(** [array.find(predicate)] followed by a truthiness test of what was
    found: the first element that satisfies the predicate decides, and
    the empty string is falsy. *)
Definition found (predicate : string → bool) (l : list string) : bool :=
  match List.find predicate l with
  | Some EmptyString => false
  | Some _ => true
  | None => false
  end.

Definition startsWith (prefix text : string) : bool := String.prefix prefix text.

Definition devtools_message : string :=
  "Option " +:+ Binding.dquote +:+ "devtools" +:+ Binding.dquote
  +:+ " is not supported by Firefox".

(** [Firefox._defaultArgs]; [port] is rendered by [String(port)]. *)
Definition _defaultArgs (options : BrowserArgOptions) (launchType : LaunchType)
    (userDataDir : string) (port : N) : string + list string :=
  let devtools := default false (devtools options) in
  let headless := default (negb devtools) (headless options) in
  let args := default [] (args options) in
  if devtools then inl devtools_message
  else if found (λ arg, startsWith "-profile" arg || startsWith "--profile" arg) args then
    inl "Pass userDataDir parameter instead of specifying -profile argument"
  else if found (λ arg, startsWith "-juggler" arg) args then
    inl "Use the port parameter instead of -juggler argument"
  else if negb (match launchType with Persistent => true | _ => false end)
          && found (λ arg, negb (startsWith "-" arg)) args then
    inl "Arguments can not specify page to be opened"
  else
    inr (["-no-remote"]
         ++ (if headless then ["-headless"] else ["-wait-for-browser"; "-foreground"])
         ++ ["-profile"; userDataDir]
         ++ ["-juggler"; NilZero.string_of_uint (N.to_uint port)]
         ++ args
         ++ (if forallb (λ arg, startsWith "-" arg) args then ["about:blank"] else [])).

(** The [ignoreDefaultArgs] option of [_launchServer]: [false] or left
    out, [true], or an array. *)
Inductive IgnoreDefaultArgs :=
| IgnoreNothing
| IgnoreAll
| IgnoreThese (ignored : list string).

(** The [firefoxArguments] of [Firefox._launchServer]. *)
Definition firefoxArguments (ignoreDefaultArgs : IgnoreDefaultArgs)
    (options : BrowserArgOptions) (launchType : LaunchType)
    (userDataDir : string) (port : N) : string + list string :=
  match ignoreDefaultArgs with
  | IgnoreNothing => _defaultArgs options launchType userDataDir port
  | IgnoreThese ignored =>
      match _defaultArgs options launchType userDataDir port with
      | inl error => inl error
      | inr defaults => inr (filter (λ arg, arg ∉ ignored) defaults)
      end
  | IgnoreAll => inr (default [] (args options))
  end.

Lemma found_nonempty predicate l :
  (∀ arg, predicate arg = true → arg ≠ EmptyString) →
  found predicate l = false ↔ Forall (λ arg, predicate arg = false) l.
Proof.
  intros Hnonempty. unfold found. induction l as [|arg l IH]; simpl.
  - split; [constructor|done].
  - rewrite Forall_cons. destruct (predicate arg) eqn:Harg.
    + specialize (Hnonempty arg Harg). destruct arg; [done|].
      split; [done|]. by intros [? _].
    + rewrite IH. split; [done|by intros [_ ?]].
Qed.

(** The user arguments name no page as far as the test of [_defaultArgs]
    sees: every argument before the first empty one starts with a dash. *)
Definition no_page_seen (l : list string) : Prop :=
  ∃ dashed rest,
    l = dashed ++ rest
    ∧ Forall (λ arg, startsWith "-" arg = true) dashed
    ∧ (rest = [] ∨ ∃ rest', rest = EmptyString :: rest').

Lemma found_page l :
  found (λ arg, negb (startsWith "-" arg)) l = false ↔ no_page_seen l.
Proof.
  unfold found, no_page_seen. induction l as [|arg l IH]; simpl.
  - split; [|done]. intros _. exists [], []. split; [done|]. split; [constructor|by left].
  - destruct (startsWith "-" arg) eqn:Harg; simpl.
    + rewrite IH. split.
      * intros (dashed & rest & -> & Hdashed & Hrest).
        exists (arg :: dashed), rest. split; [done|]. split; [by constructor|done].
      * intros (dashed & rest & Hl & Hdashed & Hrest).
        destruct dashed as [|d dashed].
        -- simpl in Hl. destruct Hrest as [->|[rest' ->]]; [done|].
           injection Hl as -> _. done.
        -- injection Hl as -> ->. apply Forall_cons in Hdashed as [_ Hdashed].
           by exists dashed, rest.
    + destruct arg as [|c arg].
      * split; [|done]. intros _. exists [], (EmptyString :: l).
        split; [done|]. split; [constructor|]. right. by exists l.
      * split; [done|]. intros (dashed & rest & Hl & Hdashed & Hrest).
        destruct dashed as [|d dashed].
        -- simpl in Hl. destruct Hrest as [->|[rest' ->]]; [done|]. by injection Hl.
        -- injection Hl as Hhead _. apply Forall_cons in Hdashed as [Hd _].
           congruence.
Qed.

Lemma defaultArgs_tests
    (options : BrowserArgOptions) (launchType : LaunchType)
    (userDataDir : string) (port : N) :
  (∃ arguments, _defaultArgs options launchType userDataDir port = inr arguments)
  ↔ default false (devtools options) = false
    ∧ found (λ arg, startsWith "-profile" arg || startsWith "--profile" arg)
        (default [] (args options)) = false
    ∧ found (λ arg, startsWith "-juggler" arg) (default [] (args options)) = false
    ∧ (launchType = Persistent
       ∨ found (λ arg, negb (startsWith "-" arg)) (default [] (args options)) = false).
Proof.
  unfold _defaultArgs.
  destruct (default false (devtools options)).
  { split; [intros [? ?]; discriminate|]. by intros [? _]. }
  destruct (found (λ arg, startsWith "-profile" arg || startsWith "--profile" arg) _).
  { split; [intros [? ?]; discriminate|]. by intros (_ & ? & _). }
  destruct (found (λ arg, startsWith "-juggler" arg) _).
  { split; [intros [? ?]; discriminate|]. by intros (_ & _ & ? & _). }
  destruct launchType; simpl.
  - destruct (found (λ arg, negb (startsWith "-" arg)) _).
    + split; [intros [? ?]; discriminate|]. by intros (_ & _ & _ & [?|?]).
    + split; [|by eexists]. intros _. repeat (split; [done|]). by right.
  - destruct (found (λ arg, negb (startsWith "-" arg)) _).
    + split; [intros [? ?]; discriminate|]. by intros (_ & _ & _ & [?|?]).
    + split; [|by eexists]. intros _. repeat (split; [done|]). by right.
  - split; [|by eexists]. intros _. repeat (split; [done|]). by left.
Qed.

(** [_defaultArgs] returns a command line exactly when [devtools] is not
    set, no user argument starts with [-profile], [--profile] or
    [-juggler], and, unless the launch is persistent, every user argument
    that comes before the first empty one starts with a dash.  Arguments
    after an empty argument are not looked at by the last test. *)
Theorem default_args_accepted_iff
    (options : BrowserArgOptions) (launchType : LaunchType)
    (userDataDir : string) (port : N) :
  (∃ arguments, _defaultArgs options launchType userDataDir port = inr arguments)
  ↔ default false (devtools options) = false
    ∧ Forall (λ arg, startsWith "-profile" arg = false
                     ∧ startsWith "--profile" arg = false
                     ∧ startsWith "-juggler" arg = false)
        (default [] (args options))
    ∧ (launchType = Persistent ∨ no_page_seen (default [] (args options))).
Proof.
  rewrite defaultArgs_tests, found_page.
  rewrite !found_nonempty by (intros arg Harg ->; discriminate).
  assert (Hflags : Forall (λ arg, startsWith "-profile" arg || startsWith "--profile" arg = false)
                     (default [] (args options))
                   ∧ Forall (λ arg, startsWith "-juggler" arg = false)
                       (default [] (args options))
                   ↔ Forall (λ arg, startsWith "-profile" arg = false
                                    ∧ startsWith "--profile" arg = false
                                    ∧ startsWith "-juggler" arg = false)
                       (default [] (args options))).
  { rewrite !Forall_forall. split.
    - intros [H1 H2] arg Harg. specialize (H1 arg Harg). specialize (H2 arg Harg).
      apply orb_false_iff in H1 as [? ?]. done.
    - intros Hall. split; intros arg Harg; destruct (Hall arg Harg) as (H1 & H2 & H3);
        [by rewrite H1, H2|done]. }
  rewrite <- Hflags. tauto.
Qed.

Lemma default_args_accepted_iff_witness :
  ∃ arguments,
    _defaultArgs {| devtools := None; headless := None;
                    args := Some [EmptyString; "page.html"] |} Local "/tmp/profile" 0
    = inr arguments.
Proof.
  apply (default_args_accepted_iff
           {| devtools := None; headless := None;
              args := Some [EmptyString; "page.html"] |} Local "/tmp/profile" 0).
  split; [reflexivity|]. split.
  - repeat constructor.
  - right. exists [], [EmptyString; "page.html"].
    split; [reflexivity|]. split; [constructor|]. right. by exists ["page.html"].
Defined.

Lemma forallb_Forall (predicate : string → bool) l :
  Forall (λ arg, predicate arg = true) l → forallb predicate l = true.
Proof.
  induction 1 as [|arg l Harg _ IH]; simpl; [done|]. by rewrite Harg, IH.
Qed.

(** In a launch that is not persistent, a command line that
    [_defaultArgs] builds from user arguments none of which is empty has
    only user arguments that start with a dash, and is [-no-remote], the
    head mode, the profile and the port, the user arguments, and
    [about:blank] last, in this order. *)
Theorem default_args_open_blank
    (options : BrowserArgOptions) (launchType : LaunchType)
    (userDataDir : string) (port : N) (arguments : list string) :
  launchType ≠ Persistent →
  EmptyString ∉ default [] (args options) →
  _defaultArgs options launchType userDataDir port = inr arguments →
  Forall (λ arg, startsWith "-" arg = true) (default [] (args options))
  ∧ arguments
    = ["-no-remote"]
      ++ (if default true (headless options) then ["-headless"]
          else ["-wait-for-browser"; "-foreground"])
      ++ ["-profile"; userDataDir; "-juggler"; NilZero.string_of_uint (N.to_uint port)]
      ++ default [] (args options)
      ++ ["about:blank"].
Proof.
  intros Hlaunch Hnonempty Hrun.
  destruct (proj1 (defaultArgs_tests options launchType userDataDir port))
    as (Hdevtools & _ & _ & Hpage); [by eexists|].
  rewrite found_page in Hpage.
  assert (Hdashed : Forall (λ arg, startsWith "-" arg = true) (default [] (args options))).
  { destruct Hpage as [?|(dashed & rest & Hargs & Hdashed & Hrest)]; [done|].
    destruct Hrest as [->|[rest' ->]].
    - by rewrite Hargs, app_nil_r.
    - destruct Hnonempty. rewrite Hargs. apply elem_of_app. right.
      apply elem_of_cons. by left. }
  split; [done|].
  unfold _defaultArgs in Hrun. cbv zeta in Hrun. rewrite Hdevtools in Hrun.
  destruct (found (λ arg, startsWith "-profile" arg || startsWith "--profile" arg) _);
    [discriminate|].
  destruct (found (λ arg, startsWith "-juggler" arg) _); [discriminate|].
  destruct (_ && _); [discriminate|].
  rewrite (forallb_Forall (λ arg, startsWith "-" arg) _ Hdashed) in Hrun.
  injection Hrun as <-. by destruct (headless options) as [[]|].
Qed.

Lemma default_args_open_blank_witness :
  _defaultArgs {| devtools := None; headless := Some false; args := Some ["-width=800"] |}
    Server "/tmp/profile" 9222
  = inr ["-no-remote"; "-wait-for-browser"; "-foreground"; "-profile"; "/tmp/profile";
         "-juggler"; "9222"; "-width=800"; "about:blank"].
Proof.
  destruct (default_args_open_blank
              {| devtools := None; headless := Some false; args := Some ["-width=800"] |}
              Server "/tmp/profile" 9222
              ["-no-remote"; "-wait-for-browser"; "-foreground"; "-profile"; "/tmp/profile";
               "-juggler"; "9222"; "-width=800"; "about:blank"]) as [_ Hshape].
  - discriminate.
  - simpl. intros Hin. apply list_elem_of_singleton in Hin. discriminate.
  - reflexivity.
  - reflexivity.
Defined.

(** With [ignoreDefaultArgs: true] the user arguments are passed as they
    are and nothing is checked, not even what [_defaultArgs] would have
    rejected.  With an array, the checks of [_defaultArgs] still apply,
    and the command line is the default one without the listed
    arguments, in the same order; an empty array changes nothing. *)
Theorem ignored_default_args
    (ignored : list string) (options : BrowserArgOptions) (launchType : LaunchType)
    (userDataDir : string) (port : N) :
  firefoxArguments IgnoreAll options launchType userDataDir port
  = inr (default [] (args options))
  ∧ firefoxArguments (IgnoreThese []) options launchType userDataDir port
    = firefoxArguments IgnoreNothing options launchType userDataDir port
  ∧ (∀ error,
       _defaultArgs options launchType userDataDir port = inl error →
       firefoxArguments (IgnoreThese ignored) options launchType userDataDir port
       = inl error)
  ∧ (∀ defaults,
       _defaultArgs options launchType userDataDir port = inr defaults →
       ∃ arguments,
         firefoxArguments (IgnoreThese ignored) options launchType userDataDir port
         = inr arguments
         ∧ arguments `sublist_of` defaults
         ∧ ∀ arg, arg ∈ arguments ↔ arg ∈ defaults ∧ arg ∉ ignored).
Proof.
  split; [done|]. split; [|split].
  - unfold firefoxArguments.
    destruct (_defaultArgs options launchType userDataDir port) as [|defaults]; [done|].
    f_equal. apply Workers.filter_all, Forall_forall. intros arg _. apply not_elem_of_nil.
  - intros error Herror. unfold firefoxArguments. by rewrite Herror.
  - intros defaults Hdefaults. unfold firefoxArguments. rewrite Hdefaults.
    eexists. split; [reflexivity|]. split; [apply sublist_filter|].
    intros arg. rewrite list_elem_of_filter. tauto.
Qed.

Lemma ignored_default_args_witness :
  ∃ arguments,
    firefoxArguments (IgnoreThese ["-headless"])
      {| devtools := None; headless := None; args := None |} Local "/tmp/profile" 0
    = inr arguments
    ∧ ("-headless" ∉ arguments).
Proof.
  destruct (ignored_default_args ["-headless"]
              {| devtools := None; headless := None; args := None |} Local "/tmp/profile" 0)
    as (_ & _ & _ & Hfiltered).
  destruct (Hfiltered ["-no-remote"; "-headless"; "-profile"; "/tmp/profile";
                       "-juggler"; "0"; "about:blank"] eq_refl)
    as (arguments & Hrun & _ & Hmem).
  exists arguments. split; [exact Hrun|].
  intros Hin. apply Hmem in Hin as [_ Hnot]. apply Hnot. apply elem_of_cons. by left.
Defined.

End Firefox.

(** ** Test helpers (test/utils.js) *)

Module TestUtils.
Import Workers.

(** A test as [generateTestIDs] reads it: its name, the names of the
    suites around it from the innermost outwards, the root suite (the one
    without a parent) left out, and where it is declared. *)
Record Test := { name : string; suites : list string; location : string }.

(** [testIdComponents.reverse().join('>')]. *)
Definition testId (test : Test) : string :=
  String.concat ">" (rev (name test :: suites test)).

(** The loop of [generateTestIDs] over the tests left, with the ids given
    so far: the ids it assigns, in order, and the two clashing tests if it
    throws. *)
Fixpoint generateTestIDs_loop (tests : list Test) (testIds : gmap string Test)
  : list string * option (Test * Test) :=
  match tests with
  | [] => ([], None)
  | test :: rest =>
      match testIds !! testId test with
      | Some clashingTest => ([], Some (test, clashingTest))
      | None =>
          let '(assigned, error) :=
            generateTestIDs_loop rest (<[testId test := test]> testIds) in
          (testId test :: assigned, error)
      end
  end.

(** [generateTestIDs]. *)
Definition generateTestIDs (tests : list Test) : list string * option (Test * Test) :=
  generateTestIDs_loop tests ∅.

Lemma generateTestIDs_loop_spec tests testIds earlier :
  (∀ id test, testIds !! id = Some test → testId test = id ∧ test ∈ earlier) →
  NoDup (generateTestIDs_loop tests testIds).1
  ∧ (∀ id, id ∈ (generateTestIDs_loop tests testIds).1 → testIds !! id = None)
  ∧ (generateTestIDs_loop tests testIds).1 `prefix_of` (testId <$> tests)
  ∧ match (generateTestIDs_loop tests testIds).2 with
    | None => (generateTestIDs_loop tests testIds).1 = testId <$> tests
    | Some (test, clashing) =>
        testId test = testId clashing
        ∧ test ∈ tests
        ∧ clashing ∈ earlier ++ tests
    end.
Proof.
  revert testIds earlier.
  induction tests as [|test tests IH]; intros testIds earlier Hids; simpl.
  - split; [constructor|]. split; [|done]. intros id Hin. by apply elem_of_nil in Hin.
  - destruct (testIds !! testId test) as [clashing|] eqn:Hlookup; simpl.
    + destruct (Hids _ _ Hlookup) as [Hid Hearlier].
      split; [constructor|]. split; [intros id Hin; by apply elem_of_nil in Hin|].
      split; [apply prefix_nil|]. split; [done|].
      split; [apply elem_of_cons; by left|]. apply elem_of_app. by left.
    + specialize (IH (<[testId test := test]> testIds) (earlier ++ [test])).
      destruct (generateTestIDs_loop tests (<[testId test := test]> testIds))
        as [assigned error].
      destruct IH as (Hnodup & Hfresh & Hprefix & Herror).
      { intros id t. destruct (decide (testId test = id)) as [<-|Hne].
        - rewrite lookup_insert_eq. intros [= <-]. split; [done|].
          apply elem_of_app. right. apply elem_of_cons. by left.
        - rewrite lookup_insert_ne by done. intros Ht.
          destruct (Hids _ _ Ht) as [? ?]. split; [done|]. apply elem_of_app. by left. }
      simpl in *. split; [|split; [|split]].
      * constructor; [|done]. intros Hin. apply Hfresh in Hin.
        by rewrite lookup_insert_eq in Hin.
      * intros id Hin. apply elem_of_cons in Hin as [->|Hin]; [done|].
        apply Hfresh in Hin. destruct (decide (testId test = id)) as [<-|Hne].
        -- by rewrite lookup_insert_eq in Hin.
        -- by rewrite lookup_insert_ne in Hin.
      * by apply prefix_cons.
      * destruct error as [[t clashing]|]; [|by rewrite Herror].
        destruct Herror as (Hclash & Ht & Hwhere).
        split; [done|]. split; [apply elem_of_cons; by right|].
        by rewrite <- app_assoc in Hwhere.
Qed.

(** When [generateTestIDs] returns, every test has got the id made of its
    suite names and its name, and no two tests have the same id.  When it
    throws, it names two tests of the run whose ids are equal, and the
    tests before the second of them keep the distinct ids they were
    given. *)
Theorem test_ids_are_distinct (tests : list Test) :
  NoDup (generateTestIDs tests).1
  ∧ (generateTestIDs tests).1 `prefix_of` (testId <$> tests)
  ∧ match (generateTestIDs tests).2 with
    | None => (generateTestIDs tests).1 = testId <$> tests
    | Some (test, clashing) =>
        testId test = testId clashing ∧ test ∈ tests ∧ clashing ∈ tests
    end.
Proof.
  destruct (generateTestIDs_loop_spec tests ∅ [])
    as (Hnodup & _ & Hprefix & Herror).
  { intros id test Hlookup. by rewrite lookup_empty in Hlookup. }
  split; [done|]. split; [done|]. exact Herror.
Qed.

(** [coverage.get(method)] for a method of the map. *)
Definition called (coverage : list (string * bool)) (method : string) : bool :=
  default false (map_get method coverage).

(** The two lists the coverage test of [recordAPICoverage] fills while it
    walks [coverage.keys()]; [coverage] is the map from method to whether
    it was called, [ignoredMethods] the set of methods to ignore. *)
Definition missingMethods (coverage : list (string * bool)) (ignoredMethods : list string)
  : list string :=
  filter (λ method, called coverage method = false ∧ method ∉ ignoredMethods) coverage.*1.

Definition extraIgnoredMethods (coverage : list (string * bool))
    (ignoredMethods : list string) : list string :=
  filter (λ method, ¬ (called coverage method = false ∧ method ∉ ignoredMethods)
                    ∧ called coverage method = true ∧ method ∈ ignoredMethods)
    coverage.*1.

(** The verdict of the test: [None] when it passes, the message of the
    error it throws otherwise. *)
Definition coverage_verdict (coverage : list (string * bool)) (ignoredMethods : list string)
  : option string :=
  if decide (extraIgnoredMethods coverage ignoredMethods ≠ []) then
    Some ("Certain API Methods are called and should not be ignored: "
          +:+ String.concat ", " (extraIgnoredMethods coverage ignoredMethods))
  else if decide (missingMethods coverage ignoredMethods ≠ []) then
    Some ("Certain API Methods are not called: "
          +:+ String.concat ", " (missingMethods coverage ignoredMethods))
  else None.

(** The coverage test passes exactly when every traced method is either
    called or ignored, and not both. *)
Theorem coverage_passes_iff (coverage : list (string * bool)) (ignoredMethods : list string) :
  coverage_verdict coverage ignoredMethods = None
  ↔ ∀ method, method ∈ coverage.*1 →
       (called coverage method = true ↔ method ∉ ignoredMethods).
Proof.
  assert (Hmissing : missingMethods coverage ignoredMethods = []
                     ↔ ∀ method, method ∈ coverage.*1 →
                         ¬ (called coverage method = false ∧ method ∉ ignoredMethods)).
  { unfold missingMethods. split.
    - intros Hnil method Hin Hbad.
      assert (Hmem : method ∈ @nil string); [|by apply elem_of_nil in Hmem].
      rewrite <- Hnil. by apply list_elem_of_filter.
    - intros Hall. apply filter_none, Forall_forall. intros method Hin. by apply Hall. }
  assert (Hextra : extraIgnoredMethods coverage ignoredMethods = []
                   ↔ ∀ method, method ∈ coverage.*1 →
                       ¬ (called coverage method = true ∧ method ∈ ignoredMethods)).
  { unfold extraIgnoredMethods. split.
    - intros Hnil method Hin [Hcalled Hignored].
      assert (Hmem : method ∈ @nil string); [|by apply elem_of_nil in Hmem].
      rewrite <- Hnil. apply list_elem_of_filter. split; [|done].
      split; [|done]. intros [Hfalse _]. congruence.
    - intros Hall. apply filter_none, Forall_forall. intros method Hin (_ & ? & ?).
      by apply (Hall method). }
  unfold coverage_verdict.
  destruct (decide (extraIgnoredMethods coverage ignoredMethods ≠ [])) as [Hsome|Hnone].
  { split; [done|]. intros Hall. destruct Hsome. apply Hextra.
    intros method Hin [Hcalled Hignored]. by apply (Hall method Hin) in Hcalled. }
  destruct (decide (missingMethods coverage ignoredMethods ≠ [])) as [Hsome|Hnone'].
  { split; [done|]. intros Hall. destruct Hsome. apply Hmissing.
    intros method Hin [Hcalled Hignored]. apply (Hall method Hin) in Hignored. congruence. }
  split; [|done]. intros _ method Hin.
  assert (Hextra' : extraIgnoredMethods coverage ignoredMethods = [])
    by (by destruct (decide (extraIgnoredMethods coverage ignoredMethods = []))).
  assert (Hmissing' : missingMethods coverage ignoredMethods = [])
    by (by destruct (decide (missingMethods coverage ignoredMethods = []))).
  pose proof (proj1 Hextra Hextra' method Hin) as Hno_extra.
  pose proof (proj1 Hmissing Hmissing' method Hin) as Hno_missing.
  destruct (called coverage method) eqn:Hcalled.
  - split; [|done]. intros _ Hignored. by apply Hno_extra.
  - split; [done|]. intros Hignored. destruct Hno_missing. done.
Qed.

Lemma coverage_passes_iff_witness :
  coverage_verdict [("page.goto", true); ("page.pdf", false)] ["page.pdf"] = None.
Proof.
  apply (coverage_passes_iff [("page.goto", true); ("page.pdf", false)] ["page.pdf"]).
  intros method Hin. simpl in Hin.
  apply elem_of_cons in Hin as [->|Hin].
  - split; [|reflexivity]. intros _ Hignored.
    apply list_elem_of_singleton in Hignored. discriminate.
  - apply list_elem_of_singleton in Hin as ->.
    split; [discriminate|]. intros Hnot. destruct Hnot. apply elem_of_cons. by left.
Defined.

End TestUtils.

(** ** The download progress bar (download-browser.js) *)

Module Download.

(** The variables [progress] closes over: the bar, known by the total it
    was made with, the bytes reported last, and the ticks the bar has
    got, oldest first. *)
Record State := {
  progressBar : option Z;
  lastDownloadedBytes : Z;
  ticks : list Z
}.

Definition start : State := {| progressBar := None; lastDownloadedBytes := 0; ticks := [] |}.

(** The callback [progress(downloadedBytes, totalBytes)]. *)
Definition progress (state : State) (report : Z * Z) : State :=
  let '(downloadedBytes, totalBytes) := report in
  {| progressBar :=
       match progressBar state with
       | None => Some totalBytes
       | Some total => Some total
       end;
     lastDownloadedBytes := downloadedBytes;
     ticks := ticks state ++ [(downloadedBytes - lastDownloadedBytes state)%Z] |}.

Definition sum (l : list Z) : Z := foldr Z.add 0%Z l.

Lemma sum_app l1 l2 : sum (l1 ++ l2) = (sum l1 + sum l2)%Z.
Proof. unfold sum. induction l1 as [|x l1 IH]; simpl; [done|]. rewrite IH. lia. Qed.

(** Whatever the reports, the bar is advanced once per report and in
    total by the number of bytes reported last, and it is made with the
    total of the first report. *)
Theorem progress_adds_up (reports : list (Z * Z)) :
  sum (ticks (foldl progress start reports))
  = lastDownloadedBytes (foldl progress start reports)
  ∧ lastDownloadedBytes (foldl progress start reports)
    = default 0%Z (fst <$> last reports)
  ∧ length (ticks (foldl progress start reports)) = length reports
  ∧ progressBar (foldl progress start reports) = snd <$> head reports.
Proof.
  assert (Hgeneral : ∀ state,
            (sum (ticks state) = lastDownloadedBytes state →
             sum (ticks (foldl progress state reports))
             = lastDownloadedBytes (foldl progress state reports))
            ∧ lastDownloadedBytes (foldl progress state reports)
              = default (lastDownloadedBytes state) (fst <$> last reports)
            ∧ length (ticks (foldl progress state reports))
              = (length (ticks state) + length reports)%nat
            ∧ progressBar (foldl progress state reports)
              = match progressBar state with
                | Some total => Some total
                | None => snd <$> head reports
                end).
  { induction reports as [|[downloaded total] reports IH]; intros state.
    - simpl. split; [done|]. split; [done|]. split; [lia|]. by destruct (progressBar state).
    - destruct (IH (progress state (downloaded, total))) as (Hsum & Hlast & Hlength & Hbar).
      change (foldl progress state ((downloaded, total) :: reports))
        with (foldl progress (progress state (downloaded, total)) reports).
      split; [|split; [|split]].
      + intros Hstate. apply Hsum. simpl. rewrite sum_app, Hstate. unfold sum. simpl. lia.
      + rewrite Hlast, (last_cons (downloaded, total)). simpl. by destruct (last reports).
      + rewrite Hlength. simpl. rewrite length_app. simpl. lia.
      + rewrite Hbar. simpl. by destruct (progressBar state). }
  destruct (Hgeneral start) as (Hsum & Hlast & Hlength & Hbar).
  split; [by apply Hsum|]. done.
Qed.

End Download.

(** ** Registrations of bindings on a context and its pages *)

Module BindingRuns.
Import Binding.









End BindingRuns.
